(** * Verification of the pipeline scheduler of [debug/scripts/pipeline.py]

    Shallow embedding of the dependency resolution
    ([iterative_topological_sort]), the execution engine ([execute_dask]),
    the timing store ([update_timing]), the workspace manager
    ([make_working_dir]), the commands and the stages of [main], the
    argument types of [add_args], and the blocks of rows and of times of
    [debug/scripts/tec_inference_improved.py]. *)

From Stdlib Require Import Strings.String Strings.Ascii.
From stdpp Require Import base option list sets gmap strings pretty sorting.

#[local] Set Warnings "-clear-no-such-hyp".

(** ** Python lists

    A Python list is a Rocq list in the same order: [l.append(x)] is
    [l ++ [x]], [l.extend(l')] is [l ++ l'], [l[::-1]] is [reverse l], and
    [l.pop()] removes and returns the last element. *)

Module Py.

Definition append {A} (l : list A) (x : A) : list A := l ++ [x].

Definition extend {A} (l l' : list A) : list A := l ++ l'.

Definition reversed {A} (l : list A) : list A := reverse l.

(** [l.pop()]: [None] on the empty list (where Python raises), otherwise the
    remaining list and the removed last element. *)
Definition pop {A} (l : list A) : option (list A * A) :=
  match reverse l with
  | [] => None
  | x :: r => Some (reverse r, x)
  end.

End Py.

(** ** Dependency resolution *)

Module Topo.

(** [graph] is the dict from a node id to the list of the ids it depends on. *)
Abbreviation graph := (gmap string (list string)).

(** What a run of the resolution ends in: the returned list, the [KeyError]
    that [graph[v]] raises on an id that is not a key, or the model's fuel
    running out. *)
Inductive result (A : Type) : Type :=
  | Ok (a : A)
  | KeyError (k : string)
  | OutOfFuel.
Arguments Ok {A} a.
Arguments KeyError {A} k.
Arguments OutOfFuel {A}.

(** The local variables of [iterative_topological_sort]. *)
Record vars : Type := Vars {
  seen : gset string;
  stack : list string;
  order : list string;
  q : list string
}.

(** The inner loop
    [while stack and v not in graph[stack[-1]]: order.append(stack.pop())],
    by recursion on the stack read from its top: [rstack] is [stack]
    reversed, and the result is the reversed stack that is left with the
    order list. *)
Fixpoint unwind (g : graph) (v : string) (rstack order : list string)
  : result (list string * list string) :=
  match rstack with
  | [] => Ok ([], order)
  | top :: rest =>
      match g !! top with
      | None => KeyError top
      | Some deps =>
          if decide (v ∈ deps) then Ok (rstack, order)
          else unwind g v rest (Py.append order top)
      end
  end.

(** One iteration of the outer [while q] loop; [None] when [q] is empty and
    the loop is left. *)
Definition step (g : graph) (s : vars) : option (result vars) :=
  match Py.pop (q s) with
  | None => None
  | Some (q', v) =>
      Some (if decide (v ∈ seen s) then
              Ok (Vars (seen s) (stack s) (order s) q')
            else
              match g !! v with
              | None => KeyError v
              | Some deps =>
                  match unwind g v (reverse (stack s)) (order s) with
                  | Ok (rstack', order') =>
                      Ok (Vars ({[v]} ∪ seen s)
                               (Py.append (reverse rstack') v)
                               order'
                               (Py.extend q' deps))
                  | KeyError k => KeyError k
                  | OutOfFuel => OutOfFuel
                  end
              end)
  end.

(** The outer loop with the value returned after it,
    [stack + order[::-1]]. *)
Fixpoint loop (fuel : nat) (g : graph) (s : vars) : result (list string) :=
  match step g s with
  | None => Ok (stack s ++ Py.reversed (order s))
  | Some (Ok s') =>
      match fuel with
      | O => OutOfFuel
      | S fuel' => loop fuel' g s'
      end
  | Some (KeyError k) => KeyError k
  | Some OutOfFuel => OutOfFuel
  end.

(** Every iteration takes one entry off [q], and the entries that are put
    on [q] are the dependency lists of the nodes met for the first time:
    the loop runs at most once for the start entry and [1 + len(graph[k])]
    times for every key [k]. *)
Definition weight (g : graph) : nat :=
  map_fold (λ _ deps acc, S (length deps + acc)) 0 g.

Definition fuel_of (g : graph) : nat := S (weight g).

Definition init (start : string) : vars := Vars ∅ [] [] [start].

Definition iterative_topological_sort (g : graph) (start : string)
  : result (list string) :=
  loop (fuel_of g) g (init start).

(** The order the engine walks:
    [iterative_topological_sort(graph, key)[::-1]]. *)
Definition topo_order (g : graph) (key : string) : result (list string) :=
  match iterative_topological_sort g key with
  | Ok l => Ok (Py.reversed l)
  | KeyError k => KeyError k
  | OutOfFuel => OutOfFuel
  end.

End Topo.

(** ** Properties of graphs and of orders *)

Module Graph.

Import Topo.

(** [edge g x c]: node [x] lists [c] as a dependency. *)
Definition edge (g : graph) (x c : string) : Prop :=
  ∃ deps, g !! x = Some deps ∧ c ∈ deps.

(** [x] transitively depends on [y]. *)
Definition depends (g : graph) : relation string := tc (edge g).

(** The target's transitive closure: the target and its ancestors. *)
Definition closure (g : graph) (target : string) (x : string) : Prop :=
  rtc (edge g) target x.

Definition acyclic (g : graph) : Prop := ∀ x, ¬ depends g x x.

(** Every referenced dependency id is a node. *)
Definition closed (g : graph) : Prop :=
  ∀ x c, edge g x c → is_Some (g !! c).

(** A stack read from its top is a path of the graph: every node is a
    dependency of the one below it. *)
Fixpoint chain (g : graph) (rstack : list string) : Prop :=
  match rstack with
  | [] => True
  | y :: rest =>
      match rest with
      | [] => True
      | x :: _ => edge g x y
      end ∧ chain g rest
  end.

(** The entries of [q], read from its top, are split into one segment per
    stack node, in the order of the stack: the segment of a node holds
    dependencies of that node only, and all of them that are not seen yet. *)
Inductive aligned (g : graph) (sn : gset string)
  : list string → list string → Prop :=
  | aligned_nil : aligned g sn [] []
  | aligned_cons x deps seg rstack rq :
      g !! x = Some deps →
      (∀ c, c ∈ seg → c ∈ deps) →
      (∀ c, c ∈ deps → c ∉ sn → c ∈ seg) →
      aligned g sn rstack rq →
      aligned g sn (x :: rstack) (seg ++ rq).

(** Every node of the list comes before all of its dependencies. *)
Fixpoint deps_after (g : graph) (l : list string) : Prop :=
  match l with
  | [] => True
  | x :: l' => (∀ c, edge g x c → c ∈ l') ∧ deps_after g l'
  end.

(** The loop invariant of [iterative_topological_sort], from the end of the
    first iteration on. *)
Record inv (g : graph) (start : string) (s : vars) : Prop := Inv {
  inv_seen : ∀ x, x ∈ seen s ↔ x ∈ stack s ++ order s;
  inv_nodup : NoDup (stack s ++ order s);
  inv_start : start ∈ seen s;
  inv_chain : chain g (reverse (stack s));
  inv_aligned : aligned g (seen s) (reverse (stack s)) (reverse (q s));
  inv_order : deps_after g (reverse (order s));
  inv_reach : ∀ x, x ∈ seen s → closure g start x
}.

(** What is left to do: the entries of [q] and the nodes not seen yet with
    their dependency lists. *)
Definition measure (g : graph) (s : vars) : nat :=
  length (q s) + weight (filter (λ kv, kv.1 ∉ seen s) g).

End Graph.

(** ** Python strings and dicts *)

Module Str.

(** The ASCII characters that [str.strip()] removes: tab, line feed,
    vertical tab, form feed, carriage return, the four separators
    [\x1c] to [\x1f] and the space. *)
Definition is_space (c : ascii) : bool :=
  let n := nat_of_ascii c in
  ((9 <=? n) && (n <=? 13)) || ((28 <=? n) && (n <=? 32)).

Fixpoint lstrip (s : string) : string :=
  match s with
  | EmptyString => EmptyString
  | String c s' => if is_space c then lstrip s' else s
  end.

Fixpoint rstrip (s : string) : string :=
  match s with
  | EmptyString => EmptyString
  | String c s' =>
      match rstrip s' with
      | EmptyString => if is_space c then EmptyString else String c EmptyString
      | r => String c r
      end
  end.

(** [s.strip()] *)
Definition strip (s : string) : string := lstrip (rstrip s).

(** [c in s] for a one-character string [c]. *)
Fixpoint contains (c : ascii) (s : string) : bool :=
  match s with
  | EmptyString => false
  | String a s' => if decide (a = c) then true else contains c s'
  end.

(** [s.split(sep)] for a one-character separator. *)
Fixpoint split (sep : ascii) (s : string) : list string :=
  match s with
  | EmptyString => [EmptyString]
  | String c s' =>
      if decide (c = sep) then EmptyString :: split sep s'
      else match split sep s' with
           | w :: ws => String c w :: ws
           | [] => [String c EmptyString]
           end
  end.

(** [sep.join(l)] *)
Fixpoint join (sep : string) (l : list string) : string :=
  match l with
  | [] => EmptyString
  | [x] => x
  | x :: l' => x +:+ sep +:+ join sep l'
  end.

(** What reading a file opened in text mode does to line ends: ["\r\n"] and
    a lone ["\r"] become ["\n"]. *)
Fixpoint universal_newlines (s : string) : string :=
  match s with
  | EmptyString => EmptyString
  | String c s' =>
      if decide (c = "013"%char) then
        String "010"%char
          match s' with
          | String c' s'' =>
              if decide (c' = "010"%char) then universal_newlines s''
              else universal_newlines s'
          | EmptyString => EmptyString
          end
      else String c (universal_newlines s')
  end.

(** The lines [for line in f] yields, each with its line feed. *)
Fixpoint readlines (s : string) : list string :=
  match s with
  | EmptyString => []
  | String c s' =>
      if decide (c = "010"%char) then String c EmptyString :: readlines s'
      else match readlines s' with
           | l :: ls => String c l :: ls
           | [] => [String c EmptyString]
           end
  end.

Definition concat (l : list string) : string := foldr String.append EmptyString l.

End Str.

(** A [dict] with string keys keeps its keys in insertion order: a list of
    pairs with no key twice. *)
Module Dict.

Section dict.
Context {V : Type}.

Fixpoint get (d : list (string * V)) (k : string) : option V :=
  match d with
  | [] => None
  | (k', v) :: d' => if decide (k' = k) then Some v else get d' k
  end.

(** [d[k] = v]: in place for a key of [d], at the end for a new key. *)
Fixpoint set (d : list (string * V)) (k : string) (v : V) : list (string * V) :=
  match d with
  | [] => [(k, v)]
  | (k', v') :: d' =>
      if decide (k' = k) then (k', v) :: d' else (k', v') :: set d' k v
  end.
End dict.

End Dict.

(** ** The timing store *)

Module Timing.



Abbreviation timings := (list (string * list string)).

(** The body of [for line in f]. *)
Definition read_line (t : timings) (line : string) : timings :=
  if decide (Str.strip line = "") then t
  else if Str.contains "#" line then t
  else match Str.strip <$> Str.split "," (Str.strip line) with
       | k :: samples => Dict.set t k samples
       | [] => t
       end.

Definition read_timings (content : string) : timings :=
  foldl read_line [] (Str.readlines (Str.universal_newlines content)).

(** ["{},{}\n".format(k, ",".join(t))] *)
Definition write_line (kt : string * list string) : string :=
  kt.1 +:+ "," +:+ Str.join "," kt.2 +:+ "
".

Definition write_timings (t : timings) : string :=
  Str.concat (write_line <$> t).

(** The timings that a run finds in the file: none when there is no file. *)
Definition timings_of (file : option string) : timings :=
  match file with
  | Some content => read_timings content
  | None => []
  end.

(** [update_timing(timing_file, name, time)], on the content of the file
    at [timing_file]: [None] when there is no such file. The result is the
    content of the file afterwards. The durations [default_timer() - t0]
    are floats; their type and ["{:.2f}".format] are parameters. *)
Definition update_timing {Time : Type} (format_2f : Time → string)
    (file : option string) (name : string) (time : Time) : string :=
  let t := match file with
           | Some content => read_timings content
           | None => []
           end in
  let t := match Dict.get t name with
           | None => Dict.set t name [format_2f time]
           | Some samples => Dict.set t name (Py.append samples (format_2f time))
           end in
  write_timings t.




End Timing.

(** ** The execution engine *)

Module Engine.

(** The events of the run ledger. *)
Inductive event : Type :=
  | START_PIPELINE
  | START (k : string)
  | END (k : string)
  | FAIL (k : string)
  | END_WITHOUT_RUN (k : string)
  | PIPELINE_SUCCESS
  | PIPELINE_FAILURE.

(** A ledger entry: the timestamp [now()] and the event. *)
Definition entry : Type := string * event.

Definition event_text (e : event) : string :=
  match e with
  | START_PIPELINE => "START_PIPELINE"
  | START k => "START " +:+ k
  | END k => "END " +:+ k
  | FAIL k => "FAIL " +:+ k
  | END_WITHOUT_RUN k => "END_WITHOUT_RUN " +:+ k
  | PIPELINE_SUCCESS => "PIPELINE_SUCCESS"
  | PIPELINE_FAILURE => "PIPELINE_FAILURE"
  end.

(** The line of an entry in the state file,
    ["{} | START {}\n".format(now(), k)] and the like. *)
Definition entry_text (e : entry) : string :=
  e.1 +:+ " | " +:+ event_text e.2 +:+ "
".

(** The stage an entry is about. *)
Definition stage_of (e : event) : option string :=
  match e with
  | START k | END k | FAIL k | END_WITHOUT_RUN k => Some k
  | START_PIPELINE | PIPELINE_SUCCESS | PIPELINE_FAILURE => None
  end.

(** The state file: what is on disk and what has been written to the file
    object without being flushed yet. *)
Record file : Type := File {
  disk : list entry;
  buf : list entry
}.

Section engine.
(** The world the stages run in, with its clocks; the type of the floats
    of [default_timer()] with their subtraction and ["{:.2f}".format]. *)
Context {World Time : Type}.
Variable now : World → string * World.
Variable default_timer : World → Time * World.
Variable time_sub : Time → Time → Time.
Variable format_2f : Time → string.

(** A stage's runnable [dsk[k][0]] returns [None] or an exit status. *)
Definition runnable : Type := World → option Z * World.

(** What the engine does to the outside, in the order it does it. *)
Inductive action : Type :=
  | AOpen
  | AWrite (e : entry)
  | AFlush
  | AClose
  | ACall (k : string) (r : option Z)
  | ATiming (k : string) (t : Time).

(** [open(state_file, 'w')] empties the file, [write] fills the buffer of
    the file object, [flush] and the [close] at the end of the [with]
    block put the buffer on disk. *)
Definition file_step (f : file) (a : action) : file :=
  match a with
  | AOpen => File [] []
  | AWrite e => File (disk f) (buf f ++ [e])
  | AFlush | AClose => File (disk f ++ buf f) []
  | ACall _ _ | ATiming _ _ => f
  end.

Record state : Type := State {
  world : World;
  state_file : file;
  timing : option string;
  log : list action
}.

Inductive outcome (A : Type) : Type :=
  | Return (a : A)
  | SystemExit (code : Z)
  | RaiseKeyError (k : string)
  | Diverge.
Arguments Return {A} a.
Arguments SystemExit {A} code.
Arguments RaiseKeyError {A} k.
Arguments Diverge {A}.

Definition M (A : Type) : Type := state → outcome A * state.

Definition ret {A} (a : A) : M A := λ s, (Return a, s).

Definition bind {A B} (m : M A) (f : A → M B) : M B := λ s,
  match m s with
  | (Return a, s') => f a s'
  | (SystemExit c, s') => (SystemExit c, s')
  | (RaiseKeyError k, s') => (RaiseKeyError k, s')
  | (Diverge, s') => (Diverge, s')
  end.

#[local] Instance M_ret : MRet M := @ret.
#[local] Instance M_bind : MBind M := λ A B f m, bind m f.

Definition act (a : action) : M unit := λ s,
  (Return (), State (world s) (file_step (state_file s) a) (timing s)
                    (log s ++ [a])).

Definition get_now : M string := λ s,
  let '(t, w) := now (world s) in
  (Return t, State w (state_file s) (timing s) (log s)).

Definition get_timer : M Time := λ s,
  let '(t, w) := default_timer (world s) in
  (Return t, State w (state_file s) (timing s) (log s)).

Definition state_write (e : entry) : M unit := act (AWrite e).
Definition state_flush : M unit := act AFlush.

Definition call (k : string) (f : runnable) : M (option Z) := λ s,
  let '(r, w) := f (world s) in
  (Return r, State w (state_file s) (timing s) (log s ++ [ACall k r])).

Definition update_timing (k : string) (t : Time) : M unit := λ s,
  (Return (),
   State (world s) (state_file s)
         (Some (Timing.update_timing format_2f (timing s) k t))
         (log s ++ [ATiming k t])).

(** [exit(3)] *)
Definition exit {A} (code : Z) : M A := λ s, (SystemExit code, s).

Definition raise_KeyError {A} (k : string) : M A := λ s, (RaiseKeyError k, s).

(** [with open(state_file, 'w') as state: body]; the file is closed
    however the body is left. *)
Definition with_open {A} (body : M A) : M A := λ s,
  let '(_, s1) := act AOpen s in
  let '(r, s2) := body s1 in
  let '(_, s3) := act AClose s2 in
  (r, s3).

(** The dask: node id to the runnable and the ids it depends on (the
    tuple [(runnable, dep, ...)]). *)
Abbreviation dask := (gmap string (runnable * list string)).
Abbreviation results := (gmap string (option Z)).

(** The body of [for k in topo_order]; [timing_file] is the path given to
    [execute_dask] or [None], and the file at that path is the [timing]
    component of the state. The [print] calls are left out but for the
    clock they read. *)
Definition run_stage (dsk : dask) (timing_file : option string)
    (res : results) (k : string) : M results :=
  _ ← get_now;
  ts ← get_now;
  state_write (ts, START k);;
  state_flush;;
  t0 ← get_timer;
  match dsk !! k with
  | None => raise_KeyError k
  | Some (f, _) =>
      r ← call k f;
      t1 ← get_timer;
      let time_to_run := time_sub t1 t0 in
      let res := <[k := r]> res in
      match r with
      | Some code =>
          if decide (code = 0%Z) then
            ts ← get_now;
            state_write (ts, END k);;
            state_flush;;
            match timing_file with
            | Some _ => update_timing k time_to_run
            | None => ret ()
            end;;
            ret res
          else
            ts ← get_now;
            state_write (ts, FAIL k);;
            state_flush;;
            ts ← get_now;
            state_write (ts, PIPELINE_FAILURE);;
            state_flush;;
            exit 3
      | None =>
          ts ← get_now;
          state_write (ts, END_WITHOUT_RUN k);;
          ret res
      end
  end.

Fixpoint run_stages (dsk : dask) (timing_file : option string)
    (res : results) (order : list string) : M results :=
  match order with
  | [] => ret res
  | k :: order' =>
      res' ← run_stage dsk timing_file res k;
      run_stages dsk timing_file res' order'
  end.

(** The [with] block of [execute_dask]. *)
Definition run_pipeline (dsk : dask) (timing_file : option string)
    (order : list string) : M results :=
  with_open (
    ts ← get_now;
    state_write (ts, START_PIPELINE);;
    state_flush;;
    res ← run_stages dsk timing_file ∅ order;
    ts ← get_now;
    state_write (ts, PIPELINE_SUCCESS);;
    state_flush;;
    ret res).

Definition execute_dask (dsk : dask) (key : string)
    (timing_file : option string) : M results :=
  let graph := snd <$> dsk in
  match Topo.topo_order graph key with
  | Topo.Ok order => run_pipeline dsk timing_file order
  | Topo.KeyError k => raise_KeyError k
  | Topo.OutOfFuel => λ s, (Diverge, s)
  end.

(** The stages called, in the order of the calls. *)
Definition calls (l : list action) : list string :=
  omap (λ a, match a with ACall k _ => Some k | _ => None end) l.
End engine.

Arguments Return {A} a.
Arguments SystemExit {A} code.
Arguments RaiseKeyError {A} k.
Arguments Diverge {A}.
Arguments AOpen {Time}.
Arguments AWrite {Time} e.
Arguments AFlush {Time}.
Arguments AClose {Time}.
Arguments ACall {Time} k r.

End Engine.

(** ** The workspace manager *)

Module Workspace.

(** The file system is the set of the paths of the directories that exist. *)
Abbreviation dirs := (gset string).

Inductive exn : Type :=
  | FileExistsError (path : string)
  | FileNotFoundError (path : string).

(** How a call ends: with the value it returns ([None] when the function
    falls off its end) or with an exception, and the file system it leaves. *)
Inductive outcome : Type :=
  | Returned (r : option string) (fs : dirs)
  | Raised (e : exn) (fs : dirs).

(** [s] without the prefix [pre], when it starts with it. *)
Fixpoint strip_prefix (pre s : string) : option string :=
  match pre with
  | EmptyString => Some s
  | String c pre' =>
      match s with
      | String c' s' => if decide (c = c') then strip_prefix pre' s' else None
      | EmptyString => None
      end
  end.

Definition starts_with (pre s : string) : bool :=
  match strip_prefix pre s with
  | Some _ => true
  | None => false
  end.

Fixpoint ends_with_slash (s : string) : bool :=
  match s with
  | EmptyString => false
  | String c EmptyString => bool_decide (c = "/"%char)
  | String _ s' => ends_with_slash s'
  end.

(** [os.path.join(a, b)] *)
Definition path_join (a b : string) : string :=
  if starts_with "/" b then b
  else if decide (a = "") then b
  else if ends_with_slash a then a +:+ b
  else a +:+ "/" +:+ b.

(** [os.path.isdir(p)] *)
Definition isdir (p : string) (fs : dirs) : bool := bool_decide (p ∈ fs).

(** A path matches [prefix + "*"] when it extends [prefix] by characters
    other than the separator. *)
Definition matches (prefix p : string) : bool :=
  match strip_prefix prefix p with
  | Some rest => negb (Str.contains "/" rest)
  | None => false
  end.

(** [glob.glob(prefix + "*")], for a prefix that has no metacharacter of
    [glob] in it and does not end with a separator, as
    [os.path.join(root_working_dir, name)] is for the stage names of the
    pipeline: the existing paths that match, in some order. *)
Definition glob_star (prefix : string) (fs : dirs) : list string :=
  filter (λ p, matches prefix p = true) (elements fs).

(** The order of [sorted] on strings. *)
Definition str_le (a b : string) : Prop := String.leb a b = true.

#[global] Instance str_le_dec a b : Decision (str_le a b).
Proof. unfold str_le. apply _. Defined.

Definition sorted (l : list string) : list string := merge_sort str_le l.

(** [os.makedirs(p)], for a path whose parent directory exists. *)
Definition makedirs (p : string) (fs : dirs) : exn + dirs :=
  if isdir p fs then inl (FileExistsError p) else inr ({[p]} ∪ fs).

(** [shutil.rmtree(p)] removes the directory and everything under it. *)
Definition rmtree (p : string) (fs : dirs) : exn + dirs :=
  if isdir p fs then
    inr (filter (λ x, x ≠ p ∧ starts_with (p +:+ "/") x = false) fs)
  else inl (FileNotFoundError p).

(** The loop of the clobber branch,
    [for dir in previous_working_dirs:
       if os.path.isdir(most_recent): shutil.rmtree(dir)];
    an exception leaves the file system as it is by then. *)
Fixpoint remove_previous (most_recent : string) (previous : list string)
    (fs : dirs) : exn * dirs + dirs :=
  match previous with
  | [] => inr fs
  | dir :: previous' =>
      if isdir most_recent fs then
        match rmtree dir fs with
        | inr fs' => remove_previous most_recent previous' fs'
        | inl e => inl (e, fs)
        end
      else remove_previous most_recent previous' fs
  end.

(** ["{}_{}".format(name, n)] *)
Definition versioned_name (name : string) (n : nat) : string :=
  name +:+ "_" +:+ pretty n.

Definition make_working_dir (root_working_dir name : string) (do_flag : Z)
    (fs : dirs) : outcome :=
  let previous_working_dirs :=
    sorted (glob_star (path_join root_working_dir name) fs) in
  let working_dir :=
    if decide (length previous_working_dirs = 0)
    then path_join root_working_dir name
    else path_join root_working_dir
           (versioned_name name (length previous_working_dirs)) in
  let most_recent :=
    if decide (length previous_working_dirs = 0)
    then path_join root_working_dir name
    else default "" (last previous_working_dirs) in
  if decide (do_flag = 0%Z) then Returned (Some most_recent) fs
  else if decide (do_flag = 1%Z) then
    match remove_previous most_recent previous_working_dirs fs with
    | inl (e, fs') => Raised e fs'
    | inr fs' =>
        let working_dir := path_join root_working_dir name in
        match makedirs working_dir fs' with
        | inl e => Raised e fs'
        | inr fs'' => Returned (Some working_dir) fs''
        end
    end
  else if decide (do_flag = 2%Z) then
    match makedirs working_dir fs with
    | inl e => Raised e fs
    | inr fs' => Returned (Some working_dir) fs'
    end
  else Returned None fs.



(** The file system that a call leaves. *)
Definition fs_of (o : outcome) : dirs :=
  match o with
  | Returned _ fs | Raised _ fs => fs
  end.

(** The file system after the resolutions [main] makes for the stages and
    flags of [calls], one after the other. *)
Definition after (root_working_dir : string) (fs : dirs)
    (calls : list (string * Z)) : dirs :=
  foldl (λ fs c, fs_of (make_working_dir root_working_dir c.1 c.2 fs)) fs calls.

End Workspace.

(** ** Shapes of the engine's log *)

Module Trace.

Import Engine.

Section trace.
Context {Time : Type}.
Implicit Types (d : list (@action Time)) (k : string).

(** The entries written, in the order of the writes. *)
Definition writes d : list entry :=
  omap (λ a, match a with AWrite e => Some e | _ => None end) d.

(** The file that the operations of a log leave. *)
Definition replay (f : file) d : file := foldl file_step f d.

(** A call that returned a non-zero exit status. *)
Definition failing (a : @action Time) : Prop :=
  match a with
  | ACall _ (Some c) => c ≠ 0%Z
  | _ => False
  end.

(** Whenever a stage is called, nothing written is left in the buffer. *)
Fixpoint calls_flushed (f : file) d : Prop :=
  match d with
  | [] => True
  | a :: d' =>
      match a with
      | ACall _ _ => buf f = []
      | _ => True
      end ∧ calls_flushed (file_step f a) d'
  end.

(** The log of a stage that is skipped or succeeds. *)
Inductive stage_ok (timed : bool) k : list (@action Time) → Prop :=
  | stage_skipped ts ts' :
      stage_ok timed k
        [AWrite (ts, START k); AFlush; ACall k None;
         AWrite (ts', END_WITHOUT_RUN k)]
  | stage_done ts ts' tl :
      (if timed then ∃ t, tl = [ATiming k t] else tl = []) →
      stage_ok timed k
        ([AWrite (ts, START k); AFlush; ACall k (Some 0%Z);
          AWrite (ts', END k); AFlush] ++ tl).

Inductive stages_ok (timed : bool)
  : list string → list (@action Time) → Prop :=
  | stages_ok_nil : stages_ok timed [] []
  | stages_ok_cons k ks d ds :
      stage_ok timed k d → stages_ok timed ks ds →
      stages_ok timed (k :: ks) (d ++ ds).

(** The log of a stage that fails. *)
Inductive stage_fail k : list (@action Time) → Prop :=
  | stage_failed ts ts1 ts2 c :
      c ≠ 0%Z →
      stage_fail k
        [AWrite (ts, START k); AFlush; ACall k (Some c);
         AWrite (ts1, FAIL k); AFlush;
         AWrite (ts2, PIPELINE_FAILURE); AFlush].

(** The log of a stage that is no key of the dask. *)
Inductive stage_missing k : list (@action Time) → Prop :=
  | stage_is_missing ts :
      stage_missing k [AWrite (ts, START k); AFlush].

(** How the loop over the stages ends, with the log of the loop. *)
Definition stages_shape (timed : bool) (order : list string)
    (out : outcome (gmap string (option Z))) d : Prop :=
  match out with
  | Return _ => stages_ok timed order d
  | SystemExit code =>
      code = 3%Z ∧
      ∃ o1 k o2 d1 d2,
        order = o1 ++ k :: o2 ∧ d = d1 ++ d2 ∧
        stages_ok timed o1 d1 ∧ stage_fail k d2
  | RaiseKeyError k =>
      ∃ o1 o2 d1 d2,
        order = o1 ++ k :: o2 ∧ d = d1 ++ d2 ∧
        stages_ok timed o1 d1 ∧ stage_missing k d2
  | Diverge => False
  end.

(** The log of the [with] block of [execute_dask]. *)
Definition pipeline_shape (timed : bool) (order : list string)
    (out : outcome (gmap string (option Z))) d : Prop :=
  ∃ ts body,
    d = AOpen :: AWrite (ts, START_PIPELINE) :: AFlush :: body ++ [AClose] ∧
    match out with
    | Return _ =>
        ∃ ds ts', body = ds ++ [AWrite (ts', PIPELINE_SUCCESS); AFlush] ∧
                  stages_ok timed order ds
    | _ => stages_shape timed order out body
    end.
End trace.

End Trace.

(** ** A small pipeline to run the engine on *)

Module Demo.

Import Engine.

(** The world is a clock that ticks at every reading. *)
Definition now (w : nat) : string * nat := ("T" +:+ pretty w, S w).
Definition default_timer (w : nat) : nat * nat := (w, S w).
Definition format_2f (t : nat) : string := pretty t +:+ ".00".

Definition succeeds : @runnable nat := λ w, (Some 0%Z, w + 5).
Definition skipped : @runnable nat := λ w, (None, w).
Definition fails : @runnable nat := λ w, (Some 2%Z, w + 3).

Definition dsk : gmap string (@runnable nat * list string) :=
  <["a" := (succeeds, [])]> (
  <["b" := (skipped, ["a"])]> (
  <["c" := (fails, ["b"; "a"])]> (
  <["d" := (succeeds, ["a"])]> ∅))).

(** The state before a run: a ledger left by an earlier run, no timing
    file. *)
Definition s0 : @state nat nat :=
  State 0 (File [("T-1", START_PIPELINE); ("T-1", PIPELINE_SUCCESS)] [])
        None [].

Definition run (order : list string) :=
  run_pipeline now default_timer Nat.sub format_2f dsk (Some "timing.txt")
    order s0.

Definition exec (key : string) :=
  execute_dask now default_timer Nat.sub format_2f dsk key
    (Some "timing.txt") s0.

End Demo.

(** ** Conversions of the command line arguments *)

Module Args.

(** [s.lower()] on the letters of ASCII. The characters outside ASCII are
    left as they are: lowering turns none of them into a letter of ["none"]
    or ["true"], the two strings that a lowered argument is compared with. *)
Definition lower_char (c : ascii) : ascii :=
  let n := nat_of_ascii c in
  if (65 <=? n) && (n <=? 90) then ascii_of_nat (n + 32) else c.

Fixpoint lower (s : string) : string :=
  match s with
  | EmptyString => EmptyString
  | String c s' => String (lower_char c) (lower s')
  end.

(** The type [str_or_none] of [add_args]. *)
Definition string_or_none (s : string) : option string :=
  if decide (lower s = "none") then None else Some s.

(** The type [bool] of [add_args], [lambda v: v.lower() == "true"]. *)
Definition bool_type (v : string) : bool := bool_decide (lower v = "true").

End Args.

(** ** Commands and their environments *)

Module Cmd.

(** The classes [Env], [SingularityEnv] and [CondaEnv]. *)
Inductive env : Type :=
  | Env
  | SingularityEnv (image bind_dirs : string)
  | CondaEnv (conda_env : string).

(** The backslash and the line end of a continued line. *)
Definition continued : string := String "092" (String "010" EmptyString).

Definition compose (e : env) (cmd : string) : string :=
  match e with
  | Env => "bash -c '" +:+ cmd +:+ "'"
  | SingularityEnv image bind_dirs =>
      "singularity exec -B /tmp,/dev/shm,$HOME," +:+ bind_dirs +:+ " "
      +:+ image +:+ " " +:+ continued +:+ cmd
  | CondaEnv conda_env =>
      "bash -c 'source $HOME/.bashrc; conda activate " +:+ conda_env
      +:+ "; export PYTHONPATH=; " +:+ cmd +:+ "'"
  end.

(** The values that [main] gives to [CMD.add], and ["{}".format(value)].
    The two floats of [main], [0.20] and [6.], are kept as the text that
    [format] gives for them. *)
Inductive value : Type :=
  | Str (s : string)
  | Int (z : Z)
  | Bool (b : bool)
  | Float (text : string)
  | NoneValue.

Definition format (v : value) : string :=
  match v with
  | Str s => s
  | Int z => pretty z
  | Bool true => "True"
  | Bool false => "False"
  | Float text => text
  | NoneValue => "None"
  end.

(** A path or [None], as [make_working_dir] returns it. *)
Definition path_value (p : option string) : value :=
  match p with
  | Some s => Str s
  | None => NoneValue
  end.

(** The class [CMD]. *)
Record CMD : Type := Build_CMD {
  cmd : list string;
  working_dir : option string;
  exec_env : env
}.

(** [CMD(working_dir, script_dir, script_name, exec_env=exec_env)], with
    the shell [python]. *)
Definition new (working_dir : option string) (script_dir script_name : string)
    (exec_env : env) : CMD :=
  Build_CMD ["python"; Workspace.path_join script_dir script_name]
            working_dir exec_env.

(** [cmd.add(name, value)] *)
Definition add (c : CMD) (name : string) (v : value) : CMD :=
  Build_CMD (Py.append (cmd c) ("--" +:+ name +:+ "=" +:+ format v))
            (working_dir c) (exec_env c).

(** The command that [__call__] runs for a working directory that is a
    path. *)
Definition run_cmd (c : CMD) (dir : string) : string :=
  let proc_log := Workspace.path_join dir "state.log" in
  Str.join (" " +:+ continued +:+ String "009" EmptyString)
    (cmd c ++ ["2>&1 | tee -a " +:+ proc_log +:+ "; exit ${PIPESTATUS[0]}"]).

Definition exec_command (c : CMD) (dir : string) : string :=
  compose (exec_env c) (run_cmd c dir).

(** What [main] puts first in the tuple of a stage: a command, or
    [lambda *x: None]. *)
Inductive task : Type :=
  | Run (c : CMD)
  | Skip.

Section call.
Context {World : Type}.
(** [subprocess.call(exec_command, shell=True)] *)
Variable subprocess_call : string → World → Z * World.

(** [cmd()]: the exit status of the command. There is no runnable for a
    command whose working directory is [None], where [os.path.join] raises
    [TypeError]. *)
Definition call (c : CMD) : option (World → option Z * World) :=
  match working_dir c with
  | Some dir =>
      Some (λ w, let '(exit_status, w') :=
                   subprocess_call (exec_command c dir) w in
                 (Some exit_status, w'))
  | None => None
  end.

(** The runnable of a task, [None] for a command that cannot be called. *)
Definition runnable_of (t : task) : option (World → option Z * World) :=
  match t with
  | Run c => call c
  | Skip => Some (λ w, (None, w))
  end.
End call.

End Cmd.

(** ** The stages of [main] *)

Module Main.

Import Cmd Workspace.

(** The arguments of [main] that the commands of the stages are made from,
    as they are when the working directories are resolved, and the three
    environments that [main] constructs. *)
Record params : Type := Params {
  archive_dir : string;
  script_dir : string;
  obs_num : Z;
  region_file : string;
  ncpu : Z;
  ref_dir : Z;
  ref_image_fits : string;
  block_size : Z;
  deployment_type : string;
  no_subtract : bool;
  lofar_sksp_env : env;
  lofar_gain_screens_env : env;
  bayes_gain_screens_env : env
}.

(** The arguments [do_...] of [main]. *)
Record flags : Type := Flags {
  do_choose_calibrators : Z;
  do_subtract : Z;
  do_image_subtract_dirty : Z;
  do_solve_dds4 : Z;
  do_smooth_dds4 : Z;
  do_slow_dds4 : Z;
  do_image_dds4 : Z;
  do_image_smooth : Z;
  do_image_smooth_slow : Z;
  do_tec_inference : Z;
  do_merge_slow : Z;
  do_infer_screen : Z;
  do_image_screen : Z;
  do_image_screen_slow : Z
}.

(** The working directories that [main] resolves, each a path or [None]. *)
Record working_dirs : Type := WorkingDirs {
  choose_calibrators_working_dir : option string;
  subtract_working_dir : option string;
  image_subtract_dirty_working_dir : option string;
  solve_dds4_working_dir : option string;
  smooth_dds4_working_dir : option string;
  slow_dds4_working_dir : option string;
  image_smooth_working_dir : option string;
  image_dds4_working_dir : option string;
  image_smooth_slow_working_dir : option string;
  tec_inference_working_dir : option string;
  merge_slow_working_dir : option string;
  infer_screen_working_dir : option string;
  image_screen_working_dir : option string;
  image_screen_slow_working_dir : option string
}.

(** A computation on the file system that returns or raises. *)
Definition W (A : Type) : Type := dirs → exn * dirs + A * dirs.

#[local] Instance W_ret : MRet W := λ A a fs, inr (a, fs).
#[local] Instance W_bind : MBind W := λ A B f m fs,
  match m fs with
  | inl e => inl e
  | inr (a, fs') => f a fs'
  end.

Definition resolve (root_working_dir name : string) (do_flag : Z)
    : W (option string) := λ fs,
  match make_working_dir root_working_dir name do_flag fs with
  | Returned r fs' => inr (r, fs')
  | Raised e fs' => inl (e, fs')
  end.

(** The fourteen calls of [make_working_dir] in [main], in their order. *)
Definition make_working_dirs (root_working_dir : string) (f : flags)
    : W working_dirs :=
  choose_calibrators_working_dir ←
    resolve root_working_dir "choose_calibrators" (do_choose_calibrators f);
  subtract_working_dir ←
    resolve root_working_dir "subtract" (do_subtract f);
  image_subtract_dirty_working_dir ←
    resolve root_working_dir "image_subtract" (do_image_subtract_dirty f);
  solve_dds4_working_dir ←
    resolve root_working_dir "solve_dds4" (do_solve_dds4 f);
  smooth_dds4_working_dir ←
    resolve root_working_dir "smooth_dds4" (do_smooth_dds4 f);
  slow_dds4_working_dir ←
    resolve root_working_dir "slow_dds4" (do_slow_dds4 f);
  image_smooth_working_dir ←
    resolve root_working_dir "image_smooth" (do_image_smooth f);
  image_dds4_working_dir ←
    resolve root_working_dir "image_dds4" (do_image_dds4 f);
  image_smooth_slow_working_dir ←
    resolve root_working_dir "image_smooth_slow" (do_image_smooth_slow f);
  tec_inference_working_dir ←
    resolve root_working_dir "tec_inference" (do_tec_inference f);
  merge_slow_working_dir ←
    resolve root_working_dir "merge_slow" (do_merge_slow f);
  infer_screen_working_dir ←
    resolve root_working_dir "infer_screen" (do_infer_screen f);
  image_screen_working_dir ←
    resolve root_working_dir "image_screen" (do_image_screen f);
  image_screen_slow_working_dir ←
    resolve root_working_dir "image_screen_slow" (do_image_screen_slow f);
  mret (WorkingDirs
          choose_calibrators_working_dir
          subtract_working_dir
          image_subtract_dirty_working_dir
          solve_dds4_working_dir
          smooth_dds4_working_dir
          slow_dds4_working_dir
          image_smooth_working_dir
          image_dds4_working_dir
          image_smooth_slow_working_dir
          tec_inference_working_dir
          merge_slow_working_dir
          infer_screen_working_dir
          image_screen_working_dir
          image_screen_slow_working_dir).

(** The truth of an integer in [if do_...:]. *)
Definition truthy (z : Z) : bool := bool_decide (z ≠ 0%Z).

(** The dask of [main], a dict in the order of its insertions. *)
Abbreviation dsk_of_tasks := (list (string * (task * list string))).

Definition build_dsk (p : params) (f : flags) (w : working_dirs)
    : dsk_of_tasks :=
  let dsk := [] in
  let dsk :=
    Dict.set dsk "choose_calibrators"
      (if truthy (do_choose_calibrators f) then
         let cmd := new (choose_calibrators_working_dir w) (script_dir p)
                        "choose_calibrators.py" (lofar_sksp_env p) in
         let cmd := add cmd "region_file" (Str (region_file p)) in
         let cmd := add cmd "ref_image_fits" (Str (ref_image_fits p)) in
         let cmd := add cmd "working_dir" (path_value (choose_calibrators_working_dir w)) in
         let cmd := add cmd "flux_limit" (Float "0.2") in
         let cmd := add cmd "min_spacing_arcmin" (Float "6.0") in
         (Run cmd, [])
       else (Skip, [])) in
  let dsk :=
    Dict.set dsk "subtract"
      (if truthy (do_subtract f) then
         let cmd := new (subtract_working_dir w) (script_dir p)
                        "sub-sources-outside-region-mod.py" (lofar_sksp_env p) in
         let cmd := add cmd "region_file" (Str (region_file p)) in
         let cmd := add cmd "ncpu" (Int (ncpu p)) in
         let cmd := add cmd "obs_num" (Int (obs_num p)) in
         let cmd := add cmd "archive_dir" (Str (archive_dir p)) in
         let cmd := add cmd "working_dir" (path_value (subtract_working_dir w)) in
         let cmd := add cmd "only_setup" (Bool (no_subtract p)) in
         (Run cmd, ["choose_calibrators"])
       else (Skip, ["choose_calibrators"])) in
  let dsk :=
    Dict.set dsk "solve_dds4"
      (if truthy (do_solve_dds4 f) then
         let cmd := new (solve_dds4_working_dir w) (script_dir p)
                        "solve_on_subtracted.py" (lofar_sksp_env p) in
         let cmd := add cmd "region_file" (Str (region_file p)) in
         let cmd := add cmd "ncpu" (Int (ncpu p)) in
         let cmd := add cmd "obs_num" (Int (obs_num p)) in
         let cmd := add cmd "data_dir" (path_value (subtract_working_dir w)) in
         let cmd := add cmd "working_dir" (path_value (solve_dds4_working_dir w)) in
         (Run cmd, ["subtract"])
       else (Skip, ["subtract"])) in
  let dsk :=
    Dict.set dsk "smooth_dds4"
      (if truthy (do_smooth_dds4 f) then
         let cmd := new (smooth_dds4_working_dir w) (script_dir p)
                        "smooth_dds4_simple.py" (bayes_gain_screens_env p) in
         let cmd := add cmd "obs_num" (Int (obs_num p)) in
         let cmd := add cmd "data_dir" (path_value (subtract_working_dir w)) in
         let cmd := add cmd "working_dir" (path_value (smooth_dds4_working_dir w)) in
         (Run cmd, ["solve_dds4"])
       else (Skip, ["solve_dds4"])) in
  let dsk :=
    Dict.set dsk "tec_inference"
      (if truthy (do_tec_inference f) then
         let cmd := new (tec_inference_working_dir w) (script_dir p)
                        "tec_inference_improved.py" (bayes_gain_screens_env p) in
         let cmd := add cmd "obs_num" (Int (obs_num p)) in
         let cmd := add cmd "ncpu" (Int (ncpu p)) in
         let cmd := add cmd "data_dir" (path_value (subtract_working_dir w)) in
         let cmd := add cmd "working_dir" (path_value (tec_inference_working_dir w)) in
         let cmd := add cmd "ref_dir" (Int (ref_dir p)) in
         (Run cmd, ["smooth_dds4"; "solve_dds4"])
       else (Skip, ["smooth_dds4"; "solve_dds4"])) in
  let dsk :=
    Dict.set dsk "slow_solve_dds4"
      (if truthy (do_slow_dds4 f) then
         let cmd := new (slow_dds4_working_dir w) (script_dir p)
                        "slow_solve_on_subtracted.py" (lofar_sksp_env p) in
         let cmd := add cmd "ncpu" (Int (ncpu p)) in
         let cmd := add cmd "obs_num" (Int (obs_num p)) in
         let cmd := add cmd "data_dir" (path_value (subtract_working_dir w)) in
         let cmd := add cmd "working_dir" (path_value (slow_dds4_working_dir w)) in
         (Run cmd, ["smooth_dds4"])
       else (Skip, ["smooth_dds4"])) in
  let dsk :=
    Dict.set dsk "infer_screen"
      (if truthy (do_infer_screen f) then
         let cmd := new (infer_screen_working_dir w) (script_dir p)
                        "infer_screen.py" (bayes_gain_screens_env p) in
         let cmd := add cmd "obs_num" (Int (obs_num p)) in
         let cmd := add cmd "data_dir" (path_value (subtract_working_dir w)) in
         let cmd := add cmd "working_dir" (path_value (infer_screen_working_dir w)) in
         let cmd := add cmd "ref_image_fits" (Str (ref_image_fits p)) in
         let cmd := add cmd "block_size" (Int (block_size p)) in
         let cmd := add cmd "max_N" (Int 250) in
         let cmd := add cmd "ncpu" (Int (ncpu p)) in
         let cmd := add cmd "ref_dir" (Int (ref_dir p)) in
         let cmd := add cmd "deployment_type" (Str (deployment_type p)) in
         (Run cmd, ["tec_inference"; "smooth_dds4"])
       else (Skip, ["tec_inference"; "smooth_dds4"])) in
  let dsk :=
    Dict.set dsk "merge_slow"
      (if truthy (do_merge_slow f) then
         let cmd := new (merge_slow_working_dir w) (script_dir p)
                        "merge_slow.py" (bayes_gain_screens_env p) in
         let cmd := add cmd "obs_num" (Int (obs_num p)) in
         let cmd := add cmd "data_dir" (path_value (subtract_working_dir w)) in
         let cmd := add cmd "working_dir" (path_value (merge_slow_working_dir w)) in
         (Run cmd, ["infer_screen"; "smooth_dds4"; "slow_solve_dds4"])
       else (Skip, ["infer_screen"; "smooth_dds4"; "slow_solve_dds4"])) in
  let dsk :=
    Dict.set dsk "image_subtract_dirty"
      (if truthy (do_image_subtract_dirty f) then
         let cmd := new (image_subtract_dirty_working_dir w) (script_dir p)
                        "image.py" (lofar_sksp_env p) in
         let cmd := add cmd "image_type" (Str "image_subtract_dirty") in
         let cmd := add cmd "ncpu" (Int (ncpu p)) in
         let cmd := add cmd "obs_num" (Int (obs_num p)) in
         let cmd := add cmd "data_dir" (path_value (subtract_working_dir w)) in
         let cmd := add cmd "working_dir" (path_value (image_subtract_dirty_working_dir w)) in
         let cmd := add cmd "script_dir" (Str (script_dir p)) in
         (Run cmd, ["subtract"])
       else (Skip, ["subtract"])) in
  let dsk :=
    Dict.set dsk "image_dds4"
      (if truthy (do_image_dds4 f) then
         let cmd := new (image_smooth_working_dir w) (script_dir p)
                        "image.py" (lofar_sksp_env p) in
         let cmd := add cmd "image_type" (Str "image_dds4") in
         let cmd := add cmd "ncpu" (Int (ncpu p)) in
         let cmd := add cmd "obs_num" (Int (obs_num p)) in
         let cmd := add cmd "data_dir" (path_value (subtract_working_dir w)) in
         let cmd := add cmd "working_dir" (path_value (image_dds4_working_dir w)) in
         let cmd := add cmd "script_dir" (Str (script_dir p)) in
         let cmd := add cmd "use_init_dico" (Bool true) in
         (Run cmd, ["solve_dds4"])
       else (Skip, ["solve_dds4"])) in
  let dsk :=
    Dict.set dsk "image_smooth"
      (if truthy (do_image_smooth f) then
         let cmd := new (image_smooth_working_dir w) (script_dir p)
                        "image.py" (lofar_gain_screens_env p) in
         let cmd := add cmd "image_type" (Str "image_smoothed") in
         let cmd := add cmd "ncpu" (Int (ncpu p)) in
         let cmd := add cmd "obs_num" (Int (obs_num p)) in
         let cmd := add cmd "data_dir" (path_value (subtract_working_dir w)) in
         let cmd := add cmd "working_dir" (path_value (image_smooth_working_dir w)) in
         let cmd := add cmd "script_dir" (Str (script_dir p)) in
         let cmd := add cmd "use_init_dico" (Bool true) in
         (Run cmd, ["tec_inference"])
       else (Skip, ["tec_inference"])) in
  let dsk :=
    Dict.set dsk "image_smooth_slow"
      (if truthy (do_image_smooth_slow f) then
         let cmd := new (image_smooth_slow_working_dir w) (script_dir p)
                        "image.py" (lofar_gain_screens_env p) in
         let cmd := add cmd "image_type" (Str "image_smoothed_slow") in
         let cmd := add cmd "ncpu" (Int (ncpu p)) in
         let cmd := add cmd "obs_num" (Int (obs_num p)) in
         let cmd := add cmd "data_dir" (path_value (subtract_working_dir w)) in
         let cmd := add cmd "working_dir" (path_value (image_smooth_slow_working_dir w)) in
         let cmd := add cmd "script_dir" (Str (script_dir p)) in
         let cmd := add cmd "use_init_dico" (Bool true) in
         (Run cmd, ["tec_inference"; "slow_solve_dds4"; "merge_slow"])
       else (Skip, ["tec_inference"; "slow_solve_dds4"; "merge_slow"])) in
  let dsk :=
    Dict.set dsk "image_screen"
      (if truthy (do_image_screen f) then
         let cmd := new (image_screen_working_dir w) (script_dir p)
                        "image.py" (lofar_gain_screens_env p) in
         let cmd := add cmd "image_type" (Str "image_screen") in
         let cmd := add cmd "ncpu" (Int (ncpu p)) in
         let cmd := add cmd "obs_num" (Int (obs_num p)) in
         let cmd := add cmd "data_dir" (path_value (subtract_working_dir w)) in
         let cmd := add cmd "working_dir" (path_value (image_screen_working_dir w)) in
         let cmd := add cmd "script_dir" (Str (script_dir p)) in
         let cmd := add cmd "use_init_dico" (Bool true) in
         (Run cmd, ["infer_screen"])
       else (Skip, ["infer_screen"])) in
  let dsk :=
    Dict.set dsk "image_screen_slow"
      (if truthy (do_image_screen_slow f) then
         let cmd := new (image_screen_slow_working_dir w) (script_dir p)
                        "image.py" (lofar_gain_screens_env p) in
         let cmd := add cmd "image_type" (Str "image_screen_slow") in
         let cmd := add cmd "ncpu" (Int (ncpu p)) in
         let cmd := add cmd "obs_num" (Int (obs_num p)) in
         let cmd := add cmd "data_dir" (path_value (subtract_working_dir w)) in
         let cmd := add cmd "working_dir" (path_value (image_screen_slow_working_dir w)) in
         let cmd := add cmd "script_dir" (Str (script_dir p)) in
         let cmd := add cmd "use_init_dico" (Bool true) in
         (Run cmd, ["infer_screen"; "slow_solve_dds4"; "merge_slow"])
       else (Skip, ["infer_screen"; "slow_solve_dds4"; "merge_slow"])) in
  let dsk := Dict.set dsk "endpoint" (Skip, dsk.*1) in
  dsk.

(** The flag that [main] tests for the stage of a key of the dask; the
    [endpoint] has none and is never a command. *)
Definition flag_of (f : flags) (k : string) : Z :=
  if decide (k = "choose_calibrators") then do_choose_calibrators f
  else if decide (k = "subtract") then do_subtract f
  else if decide (k = "solve_dds4") then do_solve_dds4 f
  else if decide (k = "smooth_dds4") then do_smooth_dds4 f
  else if decide (k = "tec_inference") then do_tec_inference f
  else if decide (k = "slow_solve_dds4") then do_slow_dds4 f
  else if decide (k = "infer_screen") then do_infer_screen f
  else if decide (k = "merge_slow") then do_merge_slow f
  else if decide (k = "image_subtract_dirty") then do_image_subtract_dirty f
  else if decide (k = "image_dds4") then do_image_dds4 f
  else if decide (k = "image_smooth") then do_image_smooth f
  else if decide (k = "image_smooth_slow") then do_image_smooth_slow f
  else if decide (k = "image_screen") then do_image_screen f
  else if decide (k = "image_screen_slow") then do_image_screen_slow f
  else 0.

Section run.
Context {World Time : Type}.
Variable now : World → string * World.
Variable default_timer : World → Time * World.
Variable time_sub : Time → Time → Time.
Variable format_2f : Time → string.
Variable subprocess_call : string → World → Z * World.

(** The dask as the engine has it, when every command of it can be called. *)
Definition engine_dask (dsk : dsk_of_tasks)
    : option (gmap string ((World → option Z * World) * list string)) :=
  list_to_map <$>
    mapM (λ kv, r ← runnable_of subprocess_call kv.2.1;
                Some (kv.1, (r, kv.2.2))) dsk.
End run.

End Main.

(** ** The run of [test_main] *)

Module TestMain.

(** The arguments that [test_main] gives to [main], as they are when the
    working directories are resolved, with the two images found. *)
Definition root_working_dir : string := "/home/albert/store/root_redo/L342938".

Definition params : Main.params := {|
  Main.archive_dir := "/home/albert/store/lockman/archive";
  Main.script_dir := "/home/albert/store/scripts";
  Main.obs_num := 342938;
  Main.region_file :=
    "/home/albert/store/root_redo/L342938/bright_calibrators.reg";
  Main.ncpu := 32;
  Main.ref_dir := 0;
  Main.ref_image_fits :=
    "/home/albert/store/lockman/archive/image_full_ampphase_di_m.NS.app.restored.fits";
  Main.block_size := 50;
  Main.deployment_type := "directional";
  Main.no_subtract := false;
  Main.lofar_sksp_env :=
    Cmd.SingularityEnv "/home/albert/store/lofar_sksp_ddf.simg" "/beegfs/lofar";
  Main.lofar_gain_screens_env :=
    Cmd.SingularityEnv
      "/home/albert/store/lofar_sksp_ddf_gainscreens_premerge.simg"
      "/beegfs/lofar";
  Main.bayes_gain_screens_env := Cmd.CondaEnv "tf_py"
|}.

Definition flags : Main.flags := {|
  Main.do_choose_calibrators := 0;
  Main.do_subtract := 0;
  Main.do_image_subtract_dirty := 0;
  Main.do_solve_dds4 := 0;
  Main.do_smooth_dds4 := 0;
  Main.do_slow_dds4 := 0;
  Main.do_image_dds4 := 0;
  Main.do_image_smooth := 0;
  Main.do_image_smooth_slow := 0;
  Main.do_tec_inference := 2;
  Main.do_merge_slow := 0;
  Main.do_infer_screen := 0;
  Main.do_image_screen := 0;
  Main.do_image_screen_slow := 0
|}.

(** The flags when none is given on the command line. *)
Definition no_flags : Main.flags :=
  Main.Flags 0 0 0 0 0 0 0 0 0 0 0 0 0 0.

(** The working directories of a first run, in an empty root. *)
Definition working_dirs : Main.working_dirs :=
  match Main.make_working_dirs root_working_dir flags ∅ with
  | inr (w, _) => w
  | inl _ => Main.WorkingDirs None None None None None None None
                              None None None None None None None
  end.

(** A [subprocess.call] that returns 0, in the world of the clock. *)
Definition subprocess_call (command : string) (w : nat) : Z * nat :=
  (0%Z, S w).

Definition dsk : gmap string ((nat → option Z * nat) * list string) :=
  default ∅ (Main.engine_dask subprocess_call
               (Main.build_dsk params flags working_dirs)).

Definition run :=
  Engine.execute_dask Demo.now Demo.default_timer Nat.sub Demo.format_2f
    dsk "endpoint" (Some "timing.txt") Demo.s0.

End TestMain.

(** ** Blocks of rows and of times in [tec_inference_improved.py] *)

Module Blocks.

Inductive exn : Type :=
  | ZeroDivisionError
  | ValueError.

(** [len(range(0, stop, step))] for a step that is not zero. *)
Definition range_length (stop step : Z) : nat :=
  if decide (0 < step)%Z then
    if decide (0 < stop)%Z then Z.to_nat (1 + (stop - 1) / step) else 0
  else
    if decide (stop < 0)%Z then Z.to_nat (1 + (-1 - stop) / (- step)) else 0.

(** [range(0, stop, step)]; a step of zero raises [ValueError]. *)
Definition range (stop step : Z) : exn + list Z :=
  if decide (step = 0%Z) then inl ValueError
  else inr ((λ i : nat, (Z.of_nat i * step)%Z) <$> seq 0 (range_length stop step)).

(** The pairs [(start, stop)] of
    [for i in range(0, n, step): start = i; stop = min(i + step, n)]. *)
Definition blocks (n step : Z) : exn + list (Z * Z) :=
  match range n step with
  | inl e => inl e
  | inr l => inr ((λ i, (i, Z.min (i + step) n)) <$> l)
  end.


(** The blocks of times of [sequential_solve], fifty times each. *)
Definition time_blocks (N : Z) : exn + list (Z * Z) := blocks N 50.

End Blocks.

(** ** Definitions for the proofs *)



(** The text of a line of the timing file without its line end. *)
Definition line_body (kv : string * list string) : string :=
  kv.1 +:+ String "," (Str.join "," kv.2).


(** The graph of the docstring of [iterative_topological_sort]. *)
Definition g_doc : gmap string (list string) :=
  <["a" := ["b"; "c"]]> (<["c" := ["b"]]> (<["b" := []]> ∅)).

(** A target with two independent dependencies. *)
Definition g_siblings : gmap string (list string) :=
  <["t" := ["x"; "y"]]> (<["x" := []]> (<["y" := []]> ∅)).

(** The stages of [main] in the order of their definition, each with the
    stages it depends on. *)
Definition pipeline_stages : list (string * list string) :=
  [("choose_calibrators", []);
   ("subtract", ["choose_calibrators"]);
   ("solve_dds4", ["subtract"]);
   ("smooth_dds4", ["solve_dds4"]);
   ("tec_inference", ["smooth_dds4"; "solve_dds4"]);
   ("slow_solve_dds4", ["smooth_dds4"]);
   ("infer_screen", ["tec_inference"; "smooth_dds4"]);
   ("merge_slow", ["infer_screen"; "smooth_dds4"; "slow_solve_dds4"]);
   ("image_subtract_dirty", ["subtract"]);
   ("image_dds4", ["solve_dds4"]);
   ("image_smooth", ["tec_inference"]);
   ("image_smooth_slow", ["tec_inference"; "slow_solve_dds4"; "merge_slow"]);
   ("image_screen", ["infer_screen"]);
   ("image_screen_slow", ["infer_screen"; "slow_solve_dds4"; "merge_slow"])].

(** The graph of [main]: the stages and the [endpoint] that depends on all
    of them, [dsk['endpoint'] = (..., ) + tuple(dsk.keys())]. *)
Definition pipeline_graph : gmap string (list string) :=
  <["endpoint" := pipeline_stages.*1]> (list_to_map pipeline_stages).

(** The place of a stage in the order of definition. *)
Definition pipeline_rank (x : string) : nat :=
  default 0 (fst <$> list_find (λ kv, kv.1 = x)
                       (pipeline_stages ++ [("endpoint", [])])).

(** The loop invariant of [iterative_topological_sort] on any graph, from
    the end of the first iteration on: the start node stays at the bottom
    of the stack, and the nodes moved to [order] have all their
    dependencies seen. *)
Record scan (g : gmap string (list string)) (start : string)
    (s : Topo.vars) : Prop := Scan {
  scan_seen : ∀ x, x ∈ Topo.seen s ↔ x ∈ Topo.stack s ++ Topo.order s;
  scan_nodup : NoDup (Topo.stack s ++ Topo.order s);
  scan_bottom : ∃ rest, Topo.stack s = start :: rest;
  scan_aligned :
    Graph.aligned g (Topo.seen s) (reverse (Topo.stack s)) (reverse (Topo.q s));
  scan_done :
    ∀ y c, y ∈ Topo.order s → Graph.edge g y c → c ∈ Topo.seen s;
  scan_keys : ∀ y, y ∈ Topo.seen s → is_Some (g !! y);
  scan_reach : ∀ x, x ∈ Topo.seen s → Graph.closure g start x
}.

(** What a run of the resolution on any graph ends in. *)
Definition sort_outcome (g : gmap string (list string)) (start : string)
    (r : Topo.result (list string)) : Prop :=
  match r with
  | Topo.Ok L =>
      (∃ rest, L = start :: rest) ∧ NoDup L ∧
      (∀ x, x ∈ L ↔ Graph.closure g start x) ∧
      (∀ x, x ∈ L → is_Some (g !! x))
  | Topo.KeyError k => g !! k = None ∧ Graph.closure g start k
  | Topo.OutOfFuel => False
  end.

(** A graph with a cycle: [a] needs [b], [b] needs [c], [c] needs [a] and
    [b]. *)
Definition g_cycle : gmap string (list string) :=
  <["a" := ["b"]]> (<["b" := ["c"]]> (<["c" := ["a"; "b"]]> ∅)).

(** A target with three independent dependencies. *)
Definition g_flat : gmap string (list string) :=
  <["t" := ["x"; "y"; "z"]]> (<["x" := []]> (<["y" := []]> (<["z" := []]> ∅))).

(** The state of [iterative_topological_sort] on a target [t] whose
    dependencies have none of their own, with the dependencies [rem] left on
    [q] and the dependencies [done] visited, in the order of the visits. *)
Definition flat_state (t : string) (rem done : list string) : Topo.vars :=
  Topo.Vars ({[t]} ∪ list_to_set done)
            (t :: match last done with Some x => [x] | None => [] end)
            (removelast done) rem.

(** The stages called with what the calls returned, in the order of the
    calls. *)
Definition call_results {Time : Type} (d : list (@Engine.action Time))
    : list (string * option Z) :=
  omap (λ a, match a with Engine.ACall k r => Some (k, r) | _ => None end) d.

(** What a stage returns when the engine goes on to the next one: [None]
    or the exit status 0. *)
Definition ok_result (r : option Z) : Prop := r = None ∨ r = Some 0%Z.

(** The events that the ledger has for a stage that returned [r] and did
    not fail. *)
Definition stage_events (k : string) (r : option Z) : list Engine.event :=
  match r with
  | Some _ => [Engine.START k; Engine.END k]
  | None => [Engine.START k; Engine.END_WITHOUT_RUN k]
  end.

(** The dict [res] after the calls of a log. *)
Definition results_of (res : gmap string (option Z))
    (l : list (string * option Z)) : gmap string (option Z) :=
  foldl (λ m kr, <[kr.1 := kr.2]> m) res l.


(** The spellings of a word of four letters in lower and upper case. *)
Definition spellings (a b c d : ascii * ascii) : list string :=
  w ← [a.1; a.2]; x ← [b.1; b.2]; y ← [c.1; c.2]; z ← [d.1; d.2];
  [String w (String x (String y (String z EmptyString)))].

(** The letters of ["none"] and ["true"], each with its capital. *)
Definition letters : list (ascii * ascii) :=
  [("n", "N"); ("o", "O"); ("e", "E"); ("t", "T"); ("r", "R"); ("u", "U")]%char.

(** The dependency graph of a dask of tasks,
    [{k: v[1:] for k, v in dsk.items()}]. *)
Definition graph_of_tasks (dsk : list (string * (Cmd.task * list string)))
    : gmap string (list string) :=
  list_to_map ((λ kv, (kv.1, kv.2.2)) <$> dsk).

(** The order in which [main] has its stages run. *)
Definition main_order : list string :=
  ["choose_calibrators"; "subtract"; "solve_dds4"; "smooth_dds4";
   "slow_solve_dds4"; "tec_inference"; "infer_screen"; "merge_slow";
   "image_screen_slow"; "image_screen"; "image_smooth_slow";
   "image_smooth"; "image_dds4"; "image_subtract_dirty"; "endpoint"].

(** A stage is a command when its flag is not zero, and [lambda *x: None]
    when it is. *)
Definition stage_entry (f : Main.flags) (kv : string * (Cmd.task * list string))
    : Prop :=
  match kv.2.1 with
  | Cmd.Run _ => Main.flag_of f kv.1 ≠ 0%Z
  | Cmd.Skip => Main.flag_of f kv.1 = 0%Z
  end.

(** The flags and the working directories of [main], in the order of the
    calls of [make_working_dir], with the names that the calls give. *)
Definition resolutions (f : Main.flags) : list (string * Z) :=
  [("choose_calibrators", Main.do_choose_calibrators f);
   ("subtract", Main.do_subtract f);
   ("image_subtract", Main.do_image_subtract_dirty f);
   ("solve_dds4", Main.do_solve_dds4 f);
   ("smooth_dds4", Main.do_smooth_dds4 f);
   ("slow_dds4", Main.do_slow_dds4 f);
   ("image_smooth", Main.do_image_smooth f);
   ("image_dds4", Main.do_image_dds4 f);
   ("image_smooth_slow", Main.do_image_smooth_slow f);
   ("tec_inference", Main.do_tec_inference f);
   ("merge_slow", Main.do_merge_slow f);
   ("infer_screen", Main.do_infer_screen f);
   ("image_screen", Main.do_image_screen f);
   ("image_screen_slow", Main.do_image_screen_slow f)].

Definition dirs_list (w : Main.working_dirs) : list (option string) :=
  [Main.choose_calibrators_working_dir w;
   Main.subtract_working_dir w;
   Main.image_subtract_dirty_working_dir w;
   Main.solve_dds4_working_dir w;
   Main.smooth_dds4_working_dir w;
   Main.slow_dds4_working_dir w;
   Main.image_smooth_working_dir w;
   Main.image_dds4_working_dir w;
   Main.image_smooth_slow_working_dir w;
   Main.tec_inference_working_dir w;
   Main.merge_slow_working_dir w;
   Main.infer_screen_working_dir w;
   Main.image_screen_working_dir w;
   Main.image_screen_slow_working_dir w].

(** Every flag is one of the three values that [make_working_dir] knows. *)
Definition flags_valid (f : Main.flags) : Prop :=
  Forall (λ c, c.2 = 0%Z ∨ c.2 = 1%Z ∨ c.2 = 2%Z) (resolutions f).

(** Resolutions one after the other, up to the first that raises. *)
Fixpoint resolve_all (root_working_dir : string) (calls : list (string * Z))
    (fs : Workspace.dirs)
    : Workspace.exn * Workspace.dirs + list (option string) * Workspace.dirs :=
  match calls with
  | [] => inr ([], fs)
  | c :: calls' =>
      match Main.resolve root_working_dir c.1 c.2 fs with
      | inl e => inl e
      | inr (r, fs') =>
          match resolve_all root_working_dir calls' fs' with
          | inl e => inl e
          | inr (rs, fs'') => inr (r :: rs, fs'')
          end
      end
  end.



(** The text of an argument on the command line. *)
Definition arg_text (nv : string * Cmd.value) : string :=
  "--" +:+ nv.1 +:+ "=" +:+ Cmd.format nv.2.

(** What separates the parts of a command: a continued line and a tab. *)
Definition sep_text : string :=
  " " +:+ Cmd.continued +:+ String "009" EmptyString.

(** The last part of a command: the log and the exit status. *)
Definition tee_text (dir : string) : string :=
  "2>&1 | tee -a " +:+ Workspace.path_join dir "state.log"
  +:+ "; exit ${PIPESTATUS[0]}".

(** The indices of the blocks of a list, one after the other. *)
Definition covered (l : list (Z * Z)) : list Z :=
  l ≫= λ ab, seqZ ab.1 (ab.2 - ab.1).

(* ================================================================== *)
(** * Theorems *)

Import Topo Graph.

Section pop.
Context {A : Type}.
Implicit Types l : list A.

Lemma pop_nil : Py.pop (@nil A) = None.
Proof. reflexivity. Qed.

Lemma pop_snoc l x : Py.pop (l ++ [x]) = Some (l, x).
Proof.
  unfold Py.pop. rewrite reverse_snoc. by rewrite reverse_involutive.
Qed.

Lemma pop_None l : Py.pop l = None → l = [].
Proof.
  destruct l as [|y l _] using rev_ind; [done|]. by rewrite pop_snoc.
Qed.

Lemma pop_Some l l' x : Py.pop l = Some (l', x) → l = l' ++ [x].
Proof.
  destruct l as [|y l _] using rev_ind; [done|].
  rewrite pop_snoc. by intros [= -> ->].
Qed.

Lemma pop_reverse l l' x :
  Py.pop l = Some (l', x) → reverse l = x :: reverse l'.
Proof. intros ->%pop_Some. apply reverse_snoc. Qed.
End pop.

Section graph_facts.
Variable g : graph.
Implicit Types (x y c v : string) (r rs rq : list string) (sn : gset string).

Lemma chain_suffix r1 r2 : chain g (r1 ++ r2) → chain g r2.
Proof.
  induction r1 as [|a r1 IH]; [done|]. simpl. intros [_ H]. by apply IH.
Qed.

Lemma chain_below y r c : chain g (y :: r) → c ∈ r → depends g c y.
Proof.
  revert y. induction r as [|x r IH]; intros y [Hxy Hr] Hc.
  - by apply elem_of_nil in Hc.
  - apply elem_of_cons in Hc as [->|Hc]; [by apply tc_once|].
    eapply tc_r; [by apply IH|done].
Qed.

Lemma acyclic_not_below r1 y r2 c :
  acyclic g → chain g (r1 ++ y :: r2) → edge g y c → c ∉ y :: r2.
Proof.
  intros Hac Hch%chain_suffix Hyc [->|Hc]%elem_of_cons.
  - by apply (Hac y), tc_once.
  - apply (Hac y). eapply tc_l; [done|]. by eapply chain_below.
Qed.

Lemma aligned_mono sn sn' rs rq :
  sn ⊆ sn' → aligned g sn rs rq → aligned g sn' rs rq.
Proof.
  intros Hsub. induction 1 as [|x deps seg rs rq Hx Hin Hall _ IH].
  - constructor.
  - eapply aligned_cons; [done|done| |done].
    intros c Hc Hn. apply Hall; [done|]. set_solver.
Qed.

Lemma aligned_pop sn sn' rs rq v :
  sn ⊆ sn' → v ∈ sn' → aligned g sn rs (v :: rq) → aligned g sn' rs rq.
Proof.
  intros Hsub Hv. revert rq.
  induction rs as [|x rs IH]; intros rq H; inversion H as [|? deps seg ? rq0 Hx Hin Hall Hrest Heq1 Heq2]; subst.
  destruct seg as [|a seg]; simpl in *.
  - subst rq0. apply (aligned_cons _ _ x deps [] rs rq); eauto.
  - simplify_eq. econstructor; eauto.
    + intros c Hc. apply Hin. by right.
    + intros c Hc Hn. assert (c ∉ sn) as Hn' by set_solver.
      specialize (Hall c Hc Hn'). apply elem_of_cons in Hall as [->|]; done.
    + by eapply aligned_mono.
Qed.

Lemma aligned_edge sn rs rq c :
  aligned g sn rs rq → c ∈ rq → ∃ x, x ∈ rs ∧ edge g x c.
Proof.
  induction 1 as [|x deps seg rs rq Hx Hin Hall _ IH]; intros Hc.
  - by apply elem_of_nil in Hc.
  - apply elem_of_app in Hc as [Hc|Hc].
    + exists x. split; [by left|]. exists deps. auto.
    + destruct (IH Hc) as (y & ? & ?). exists y. split; [by right|done].
Qed.

Lemma aligned_done sn rs x c :
  aligned g sn rs [] → x ∈ rs → edge g x c → c ∈ sn.
Proof.
  intros H. remember [] as rq eqn:Hq. revert Hq.
  induction H as [|y deps seg rs rq Hy Hin Hall _ IH]; intros Hq Hx Hxc.
  - by apply elem_of_nil in Hx.
  - apply app_eq_nil in Hq as [-> ->].
    apply elem_of_cons in Hx as [->|Hx]; [|by apply IH].
    destruct Hxc as (deps' & Hd & Hc). simplify_eq.
    destruct (decide (c ∈ sn)) as [|Hn]; [done|].
    by apply Hall, elem_of_nil in Hn.
Qed.

Lemma aligned_lookup sn rs rq x :
  aligned g sn rs rq → x ∈ rs → is_Some (g !! x).
Proof.
  induction 1 as [|y deps seg rs rq Hy Hin Hall _ IH]; intros Hx.
  - by apply elem_of_nil in Hx.
  - apply elem_of_cons in Hx as [->|Hx]; eauto.
Qed.

(** The inner loop stops at the node whose segment holds [v]; the nodes it
    moves to [order] have no entry on [q] left, so all their dependencies
    are seen. *)
Lemma unwind_spec sn rs rq v ord :
  aligned g sn rs (v :: rq) →
  ∃ p rs',
    unwind g v rs ord = Ok (rs', ord ++ p) ∧
    rs = p ++ rs' ∧
    (∃ x rest, rs' = x :: rest ∧ edge g x v) ∧
    aligned g sn rs' (v :: rq) ∧
    (∀ y c, y ∈ p → edge g y c → c ∈ sn).
Proof.
  revert ord. induction rs as [|x rs IH]; intros ord H;
    inversion H as [|? deps seg ? rq0 Hx Hin Hall Hrest Heq1 Heq2]; subst.
  simpl. rewrite Hx. case_decide as Hv.
  - exists [], (x :: rs). rewrite app_nil_r, Heq2. split_and!; [done|done| |done|].
    + exists x, rs. split; [done|]. by exists deps.
    + intros y c Hy. by apply elem_of_nil in Hy.
  - destruct seg as [|a seg]; simpl in *.
    + subst rq0. destruct (IH (Py.append ord x) Hrest)
        as (p & rs' & Hu & -> & Hstop & Hal & Hseen).
      exists (x :: p), rs'. split_and!; [|done|done|done|].
      * rewrite Hu. unfold Py.append. by rewrite <-app_assoc.
      * intros y c [->|Hy]%elem_of_cons Hyc; [|by eapply Hseen].
        destruct Hyc as (deps' & ? & Hc). simplify_eq.
        destruct (decide (c ∈ sn)) as [|Hn]; [done|].
        by apply Hall, elem_of_nil in Hn.
    + simplify_eq. destruct Hv. apply Hin. by left.
Qed.

Lemma deps_after_app l1 l2 :
  deps_after g l2 →
  (∀ a x b c, l1 = a ++ x :: b → edge g x c → c ∈ b ++ l2) →
  deps_after g (l1 ++ l2).
Proof.
  intros H2. induction l1 as [|x l1 IH]; intros H1; [done|]. simpl. split.
  - intros c Hc. by apply (H1 [] x l1 c).
  - apply IH. intros a y b c -> Hc. by apply (H1 (x :: a) y b c).
Qed.

Lemma deps_after_split l a x b c :
  deps_after g l → l = a ++ x :: b → edge g x c → c ∈ b.
Proof.
  intros H ->. induction a as [|z a IH]; simpl in H.
  - by apply H.
  - apply IH, H.
Qed.

Lemma deps_after_trans l a x b y :
  deps_after g l → l = a ++ x :: b → depends g x y → y ∈ b.
Proof.
  intros H Hl Hxy. revert a b Hl.
  induction Hxy as [x y Hxy|x c y Hxc _ IH]; intros a b Hl.
  - by eapply deps_after_split.
  - pose proof (deps_after_split _ _ _ _ _ H Hl Hxc) as Hc.
    apply list_elem_of_split in Hc as (b1 & b2 & ->).
    assert (y ∈ b2) as Hy.
    { apply (IH (a ++ x :: b1) b2). rewrite Hl. by rewrite <-app_assoc. }
    apply elem_of_app. right. by right.
Qed.

Lemma weight_unseen sn v deps :
  g !! v = Some deps → v ∉ sn →
  weight (filter (λ kv, kv.1 ∉ sn) g)
  = S (length deps + weight (filter (λ kv, kv.1 ∉ ({[v]} ∪ sn)) g)).
Proof.
  intros Hv Hn. unfold weight.
  rewrite (map_fold_delete_L _ _ v deps); last first.
  { apply map_lookup_filter_Some. done. }
  { intros. lia. }
  do 3 f_equal. apply map_eq. intros k.
  destruct (decide (k = v)) as [->|Hne].
  - rewrite lookup_delete_eq. symmetry. apply map_lookup_filter_None.
    right. intros ? _. simpl. set_solver.
  - rewrite lookup_delete_ne by done. apply option_eq. intros d.
    rewrite !map_lookup_filter_Some. simpl.
    rewrite not_elem_of_union, not_elem_of_singleton. naive_solver.
Qed.
End graph_facts.

Section resolution.
Variable g : graph.
Implicit Types (s : vars) (x y c v : string).

Lemma unwind_fuel v rs ord : unwind g v rs ord ≠ OutOfFuel.
Proof.
  revert ord. induction rs as [|x rs IH]; intros ord; simpl; [done|].
  destruct (g !! x); [|done]. by case_decide.
Qed.

(** Every iteration of the outer loop makes the measure smaller. *)
Lemma step_measure s s' :
  step g s = Some (Ok s') → measure g s' < measure g s.
Proof.
  unfold step, measure. destruct (Py.pop (q s)) as [[q' v]|] eqn:Hpop; [|done].
  apply pop_Some in Hpop. rewrite Hpop, length_app. simpl.
  case_decide as Hv.
  - intros [= <-]. simpl. lia.
  - destruct (g !! v) as [deps|] eqn:Hg; [|done].
    destruct (unwind g v _ _) as [[rs' ord']| |]; [|done..].
    intros [= <-]. simpl. unfold Py.extend.
    rewrite length_app, (weight_unseen g (seen s) v deps) by done. lia.
Qed.

Lemma step_fuel s : step g s ≠ Some OutOfFuel.
Proof.
  unfold step. destruct (Py.pop (q s)) as [[q' v]|]; [|done].
  case_decide; [done|]. destruct (g !! v); [|done].
  pose proof (unwind_fuel v (reverse (stack s)) (order s)).
  by destruct (unwind g v _ _) as [[??]| |].
Qed.

Lemma step_visit sn st ord q' v deps rs' ord' :
  v ∉ sn → g !! v = Some deps →
  unwind g v (reverse st) ord = Ok (rs', ord') →
  step g (Vars sn st ord (q' ++ [v]))
  = Some (Ok (Vars ({[v]} ∪ sn) (reverse rs' ++ [v]) ord' (q' ++ deps))).
Proof.
  intros Hv Hd Hu. unfold step. simpl. rewrite pop_snoc.
  rewrite decide_False by done. by rewrite Hd, Hu.
Qed.

Lemma step_skip sn st ord q' v :
  v ∈ sn →
  step g (Vars sn st ord (q' ++ [v])) = Some (Ok (Vars sn st ord q')).
Proof.
  intros Hv. unfold step. simpl. rewrite pop_snoc. by rewrite decide_True.
Qed.

Lemma loop_next fuel s s' :
  step g s = Some (Ok s') → loop (S fuel) g s = loop fuel g s'.
Proof. intros Hs. simpl. by rewrite Hs. Qed.

(** The fuel is never the reason the loop stops, on any graph. *)
Lemma loop_fuel fuel s : measure g s ≤ fuel → loop fuel g s ≠ OutOfFuel.
Proof.
  revert s. induction fuel as [|fuel IH]; intros s Hm; simpl.
  - destruct (step g s) as [[s'| |]|] eqn:Hs; try done.
    + apply step_measure in Hs. lia.
    + by apply step_fuel in Hs.
  - destruct (step g s) as [[s'| |]|] eqn:Hs; try done.
    + apply IH. apply step_measure in Hs. lia.
    + by apply step_fuel in Hs.
Qed.

Lemma loop_more fuel fuel' s :
  fuel ≤ fuel' → loop fuel g s ≠ OutOfFuel → loop fuel' g s = loop fuel g s.
Proof.
  revert fuel' s. induction fuel as [|fuel IH]; intros fuel' s Hle; simpl.
  - destruct fuel'; simpl; destruct (step g s) as [[s'| |]|]; done.
  - destruct fuel' as [|fuel']; [lia|]. simpl.
    destruct (step g s) as [[s'| |]|]; try done. apply IH. lia.
Qed.

Lemma measure_init start : measure g (init start) = fuel_of g.
Proof.
  unfold measure, fuel_of. simpl. f_equal. f_equal.
  apply map_filter_id. intros i x _. simpl. apply not_elem_of_empty.
Qed.

Theorem sort_terminates start :
  iterative_topological_sort g start ≠ OutOfFuel.
Proof. apply loop_fuel. by rewrite measure_init. Qed.

Hypothesis Hacyclic : acyclic g.
Hypothesis Hclosed : closed g.
Variable start : string.

Lemma step_inv s :
  inv g start s →
  (step g s = None ∧ q s = []) ∨
  (∃ s', step g s = Some (Ok s') ∧ inv g start s').
Proof.
  intros [Hseen Hnd Hstart Hch Hal Hord Hreach].
  unfold step. destruct (Py.pop (q s)) as [[q' v]|] eqn:Hpop; last first.
  { left. split; [done|]. by apply pop_None. }
  right. pose proof (pop_reverse _ _ _ Hpop) as Hrq. rewrite Hrq in Hal.
  case_decide as Hv.
  { eexists. split; [done|]. split; simpl; try done.
    by apply (aligned_pop g (seen s) (seen s) _ _ v). }
  destruct (aligned_edge g _ _ _ v Hal) as (x0 & Hx0 & Hx0v); [by left|].
  destruct (Hclosed _ _ Hx0v) as [deps Hdeps]. rewrite Hdeps.
  destruct (unwind_spec g _ _ _ _ (order s) Hal)
    as (p & rs' & -> & Hrs & (x & rest & -> & Hxv) & Hal' & Hpseen).
  eexists. split; [done|].
  assert (stack s = reverse (x :: rest) ++ reverse p) as Hst.
  { by rewrite <-reverse_app, <-Hrs, reverse_involutive. }
  assert (∀ y, y ∈ p ++ x :: rest ↔ y ∈ stack s) as Hrst.
  { intros y. by rewrite <-Hrs, elem_of_reverse. }
  unfold Py.append, Py.extend. split; simpl.
  - intros y. rewrite elem_of_union, elem_of_singleton, Hseen.
    rewrite !elem_of_app, <-Hrst, !elem_of_app, elem_of_reverse.
    rewrite list_elem_of_singleton. tauto.
  - assert ((reverse (x :: rest) ++ [v]) ++ order s ++ p
            ≡ₚ v :: (reverse (x :: rest) ++ reverse p) ++ order s) as ->.
    { rewrite (reverse_Permutation p). solve_Permutation. }
    apply NoDup_cons. rewrite <-Hst. split; [|done].
    intros Hin. by apply Hv, Hseen.
  - apply elem_of_union. by right.
  - rewrite reverse_snoc, reverse_involutive. simpl. split; [done|].
    rewrite Hrs in Hch. by apply chain_suffix in Hch.
  - rewrite reverse_snoc, reverse_involutive, reverse_app.
    apply (aligned_cons _ _ v deps); [done| | |].
    + intros c. by rewrite elem_of_reverse.
    + intros c Hc _. by rewrite elem_of_reverse.
    + apply (aligned_pop g (seen s) _ _ _ v); [|by apply elem_of_union_l, elem_of_singleton|done].
      apply union_subseteq_r.
  - rewrite reverse_app. apply deps_after_app; [done|].
    intros a y b c Hp Hyc.
    assert (p = reverse b ++ y :: reverse a) as Hp'.
    { rewrite <-(reverse_involutive p), Hp, reverse_app, reverse_cons.
      by rewrite <-app_assoc. }
    assert (c ∈ seen s) as Hc.
    { apply (Hpseen y); [|done]. rewrite Hp'. apply elem_of_app. right. by left. }
    apply Hseen, elem_of_app in Hc as [Hc|Hc].
    + apply Hrst in Hc. rewrite Hp', <-app_assoc in Hc. simpl in Hc.
      pose proof (acyclic_not_below g (reverse b) y (reverse a ++ x :: rest) c Hacyclic) as Hnb.
      rewrite Hrs, Hp', <-app_assoc in Hch. specialize (Hnb Hch Hyc).
      apply elem_of_app in Hc as [Hc|Hc]; [|done].
      apply elem_of_app. left. by apply elem_of_reverse.
    + apply elem_of_app. right. by apply elem_of_reverse.
  - intros y [->%elem_of_singleton|Hy]%elem_of_union; [|by apply Hreach].
    eapply rtc_r; [|exact Hxv]. apply Hreach, Hseen, elem_of_app. left.
    apply Hrst, elem_of_app. right. by left.
Qed.

(** When the loop is left, [stack + order[::-1]] lists the closure of the
    start node, once each, every node before its dependencies. *)
Lemma exit_correct s :
  inv g start s → q s = [] →
  NoDup (stack s ++ reverse (order s)) ∧
  deps_after g (stack s ++ reverse (order s)) ∧
  ∀ x, x ∈ stack s ++ reverse (order s) ↔ closure g start x.
Proof.
  intros [Hseen Hnd Hstart Hch Hal Hord Hreach] Hq.
  rewrite Hq, reverse_nil in Hal.
  assert (deps_after g (stack s ++ reverse (order s))) as Hda.
  { apply deps_after_app; [done|]. intros a x b c Hst Hxc.
    assert (c ∈ seen s) as Hc.
    { apply (aligned_done g _ _ x c Hal); [|done].
      rewrite elem_of_reverse, Hst. apply elem_of_app. right. by left. }
    assert (reverse (stack s) = reverse b ++ x :: reverse a) as Hrs.
    { by rewrite Hst, reverse_app, reverse_cons, <-app_assoc. }
    rewrite Hrs in Hch.
    pose proof (acyclic_not_below g _ _ _ c Hacyclic Hch Hxc) as Hnb.
    apply Hseen in Hc. rewrite Hst in Hc.
    rewrite !elem_of_app, elem_of_cons in Hc.
    rewrite elem_of_cons, elem_of_reverse in Hnb.
    rewrite elem_of_app, elem_of_reverse. tauto. }
  split; [by rewrite reverse_Permutation|]. split; [done|].
  assert (∀ x, x ∈ stack s ++ reverse (order s) ↔ x ∈ seen s) as Hin.
  { intros x. rewrite Hseen, !elem_of_app, elem_of_reverse. tauto. }
  intros x. split; [intros Hx; by apply Hreach, Hin|].
  intros Hx.
  apply (rtc_ind_r (R:=edge g) (λ z, z ∈ stack s ++ reverse (order s)) start);
    [by apply Hin| |exact Hx].
  intros y c Hy Hyc IHc.
  apply list_elem_of_split in IHc as (a & b & Hab).
  pose proof (deps_after_split g _ _ _ _ _ Hda Hab Hyc) as Hc.
  rewrite Hab. apply elem_of_app. right. by right.
Qed.

Lemma loop_inv fuel s :
  inv g start s → measure g s ≤ fuel →
  ∃ L, loop fuel g s = Ok L ∧ NoDup L ∧ deps_after g L ∧
       ∀ x, x ∈ L ↔ closure g start x.
Proof.
  revert s. induction fuel as [|fuel IH]; intros s Hinv Hm;
    destruct (step_inv s Hinv) as [[Hs Hq]|(s' & Hs & Hinv')].
  - exists (stack s ++ reverse (order s)). simpl. rewrite Hs.
    split; [done|]. by apply exit_correct.
  - apply step_measure in Hs. lia.
  - exists (stack s ++ reverse (order s)). simpl. rewrite Hs.
    split; [done|]. by apply exit_correct.
  - simpl. rewrite Hs. apply IH; [done|]. apply step_measure in Hs. lia.
Qed.

Hypothesis Hstart : is_Some (g !! start).

Lemma inv_first deps :
  g !! start = Some deps →
  inv g start (Vars ({[start]} ∪ ∅) (Py.append (reverse []) start) []
                    (Py.extend [] deps)).
Proof.
  intros Hd. unfold Py.append, Py.extend. split; simpl.
  - intros x. rewrite elem_of_union, elem_of_singleton, list_elem_of_singleton.
    pose proof (not_elem_of_empty (C:=gset string) x). tauto.
  - apply NoDup_singleton.
  - apply elem_of_union_l. by apply elem_of_singleton.
  - done.
  - rewrite <-(app_nil_r (reverse deps)).
    apply (aligned_cons _ _ start deps); [done| | |constructor].
    + intros c. by rewrite elem_of_reverse.
    + intros c Hc _. by rewrite elem_of_reverse.
  - done.
  - intros x [->%elem_of_singleton|Hx]%elem_of_union; [constructor|].
    by apply not_elem_of_empty in Hx.
Qed.

Lemma sort_correct :
  ∃ L, iterative_topological_sort g start = Ok L ∧ NoDup L ∧
       deps_after g L ∧ ∀ x, x ∈ L ↔ closure g start x.
Proof.
  destruct Hstart as [deps Hd].
  unfold iterative_topological_sort, fuel_of. simpl.
  unfold step. simpl. rewrite decide_False by apply not_elem_of_empty.
  rewrite Hd. simpl. apply loop_inv; [by apply inv_first|].
  unfold measure, Py.extend. simpl.
  pose proof (weight_unseen g ∅ start deps Hd (not_elem_of_empty _)) as Hw.
  rewrite (map_filter_id _ g) in Hw; [lia|].
  intros i x _. apply not_elem_of_empty.
Qed.
End resolution.

(** ** Checks for concrete graphs *)

Lemma closed_check (g : graph) :
  map_Forall (λ _ deps, Forall (λ c, is_Some (g !! c)) deps) g → closed g.
Proof.
  intros H x c (deps & Hx & Hc). specialize (H x deps Hx).
  by eapply Forall_forall in H.
Qed.

Lemma acyclic_check (g : graph) (rank : string → nat) :
  map_Forall (λ x deps, Forall (λ c, rank c < rank x) deps) g → acyclic g.
Proof.
  intros H.
  assert (∀ x y, depends g x y → rank y < rank x) as Hlt.
  { induction 1 as [x y (deps & Hx & Hy)|x c y (deps & Hx & Hc) _ IH].
    - specialize (H x deps Hx). by eapply Forall_forall in H.
    - specialize (H x deps Hx). eapply Forall_forall in H; [|done]. lia. }
  intros x Hx. apply Hlt in Hx. lia.
Qed.

(** ** The resolved order *)

(** C1. On an acyclic graph whose dependency ids are all nodes, the order the
  engine walks for a target node is a list without repetition of exactly
  the nodes of the target's transitive closure, and every node of it stands
  strictly after every node it transitively depends on. *)
Theorem resolved_order_correct (g : graph) (target : string) :
  acyclic g → closed g → is_Some (g !! target) →
  ∃ l, topo_order g target = Ok l ∧
       NoDup l ∧
       (∀ x, x ∈ l ↔ closure g target x) ∧
       (∀ i j x y, l !! i = Some x → l !! j = Some y →
                   depends g x y → j < i).
Proof.
  intros Hac Hcl Ht.
  destruct (sort_correct g Hac Hcl target Ht) as (L & HL & Hnd & Hda & Hin).
  exists (reverse L). unfold topo_order. rewrite HL. split; [done|].
  split; [by rewrite reverse_Permutation|].
  split; [intros x; by rewrite elem_of_reverse|].
  intros i j x y Hi Hj Hxy.
  pose proof (take_drop_middle _ _ _ Hi) as Hsplit.
  assert (L = reverse (drop (S i) (reverse L)) ++ x :: reverse (take i (reverse L)))
    as HLs.
  { rewrite <-(reverse_involutive L) at 1. rewrite <-Hsplit at 1.
    by rewrite reverse_app, reverse_cons, <-app_assoc. }
  pose proof (deps_after_trans g _ _ _ _ y Hda HLs Hxy) as Hy.
  apply elem_of_reverse, elem_of_take in Hy as (j' & Hj' & Hlt).
  assert (NoDup (reverse L)) as Hnd' by by rewrite reverse_Permutation.
  by rewrite (NoDup_lookup _ _ _ _ Hnd' Hj Hj').
Qed.

(** The graph of the pipeline meets the conditions: every stage depends on
    stages defined before it. *)
Lemma pipeline_acyclic : acyclic pipeline_graph.
Proof.
  apply (acyclic_check _ pipeline_rank).
  apply (bool_decide_unpack _). vm_compute. reflexivity.
Qed.

Lemma pipeline_closed : closed pipeline_graph.
Proof.
  apply closed_check. apply (bool_decide_unpack _). vm_compute. reflexivity.
Qed.

Example pipeline_order :
  topo_order pipeline_graph "endpoint"
  = Ok ["choose_calibrators"; "subtract"; "solve_dds4"; "smooth_dds4";
        "slow_solve_dds4"; "tec_inference"; "infer_screen"; "merge_slow";
        "image_screen_slow"; "image_screen"; "image_smooth_slow";
        "image_smooth"; "image_dds4"; "image_subtract_dirty"; "endpoint"].
Proof. vm_compute. reflexivity. Qed.

Example doc_order : iterative_topological_sort g_doc "a" = Ok ["a"; "c"; "b"].
Proof. vm_compute. reflexivity. Qed.

Lemma resolved_order_correct_witness :
  ∃ l, topo_order pipeline_graph "endpoint" = Ok l ∧
       NoDup l ∧
       (∀ x, x ∈ l ↔ closure pipeline_graph "endpoint" x) ∧
       (∀ i j x y, l !! i = Some x → l !! j = Some y →
                   depends pipeline_graph x y → j < i).
Proof.
  apply (resolved_order_correct pipeline_graph "endpoint").
  - apply (acyclic_check _ pipeline_rank).
    apply (bool_decide_unpack _). vm_compute. reflexivity.
  - apply closed_check. apply (bool_decide_unpack _). vm_compute. reflexivity.
  - apply (bool_decide_unpack _). vm_compute. reflexivity.
Defined.

(** C4. A target whose dependency list is [[x; y]], with [x] and [y] two
  nodes without dependencies, resolves to the order [[y; x; t]]: the
  dependency declared last is explored first. *)
Theorem sibling_tie_break (g : graph) (t x y : string) :
  g !! t = Some [x; y] → g !! x = Some [] → g !! y = Some [] → x ≠ y →
  topo_order g t = Ok [y; x; t].
Proof.
  intros Ht Hx Hy Hxy.
  assert (t ≠ x) as Htx by (intros ->; congruence).
  assert (t ≠ y) as Hty by (intros ->; congruence).
  assert (loop 3 g (init t) = Ok [t; x; y]) as H3.
  { rewrite (loop_next g 2 _ (Vars ({[t]} ∪ ∅) [t] [] [x; y])); last first.
    { by apply (step_visit g ∅ [] [] [] t [x; y] [] []). }
    rewrite (loop_next g 1 _ (Vars ({[y]} ∪ ({[t]} ∪ ∅)) [t; y] [] [x]));
      last first.
    { apply (step_visit g _ [t] [] [x] y [] [t] []); [|done|].
      - rewrite elem_of_union, elem_of_singleton.
        pose proof (not_elem_of_empty (C:=gset string) y). naive_solver.
      - simpl. rewrite Ht. apply decide_True. apply elem_of_cons. right. by left. }
    rewrite (loop_next g 0 _
               (Vars ({[x]} ∪ ({[y]} ∪ ({[t]} ∪ ∅))) [t; x] [y] []));
      last first.
    { apply (step_visit g _ [t; y] [] [] x [] [t] [y]); [|done|].
      - rewrite !elem_of_union, !elem_of_singleton.
        pose proof (not_elem_of_empty (C:=gset string) x). naive_solver.
      - simpl. rewrite Hy. rewrite decide_False by apply not_elem_of_nil.
        simpl. rewrite Ht. apply decide_True. by left. }
    reflexivity. }
  unfold topo_order, iterative_topological_sort.
  destruct (decide (3 ≤ fuel_of g)) as [Hle|Hgt].
  - rewrite (loop_more g 3) by (done || by rewrite H3). by rewrite H3.
  - pose proof (sort_terminates g t) as Hterm.
    unfold iterative_topological_sort in Hterm.
    rewrite <-(loop_more g (fuel_of g) 3), H3 by (done || lia). done.
Qed.

Lemma sibling_tie_break_witness : topo_order g_siblings "t" = Ok ["y"; "x"; "t"].
Proof.
  apply (sibling_tie_break g_siblings "t" "x" "y"); [reflexivity..|].
  intros [=].
Defined.


(** ** Logs *)

Import Engine Trace.

Section trace_facts.
Context {Time : Type}.
Implicit Types (d pre post : list (@action Time)) (k : string) (f : file).

Lemma replay_app f d1 d2 : replay f (d1 ++ d2) = replay (replay f d1) d2.
Proof. apply foldl_app. Qed.

Lemma writes_app d1 d2 : writes (d1 ++ d2) = writes d1 ++ writes d2.
Proof. apply omap_app. Qed.

Lemma calls_app d1 d2 : calls (d1 ++ d2) = calls d1 ++ calls d2.
Proof. apply omap_app. Qed.

(** Without an [open], the file keeps what it had and gains the entries
    written. *)
Lemma replay_writes f d :
  Forall (λ a, a ≠ AOpen) d →
  disk (replay f d) ++ buf (replay f d) = disk f ++ buf f ++ writes d.
Proof.
  revert f. induction d as [|a d IH]; intros f Hd; simpl.
  - by rewrite app_nil_r.
  - apply Forall_cons in Hd as [Ha Hd]. unfold replay in *. simpl.
    rewrite IH by done.
    destruct a; simpl; rewrite <-?app_assoc, ?app_nil_r; done.
Qed.

Lemma calls_flushed_app f d1 d2 :
  calls_flushed f (d1 ++ d2) ↔
  calls_flushed f d1 ∧ calls_flushed (replay f d1) d2.
Proof.
  revert f. induction d1 as [|a d1 IH]; intros f; simpl; [tauto|].
  rewrite IH. unfold replay. simpl. tauto.
Qed.

Lemma calls_flushed_split f d pre k r post :
  calls_flushed f d → d = pre ++ ACall k r :: post → buf (replay f pre) = [].
Proof.
  intros H ->. apply calls_flushed_app in H as [_ H]. apply H.
Qed.

Lemma stage_ok_flushed timed k d f : stage_ok timed k d → calls_flushed f d.
Proof.
  destruct 1 as [ts ts'|ts ts' tl Htl]; simpl; [done|].
  split_and!; try done. destruct timed; [destruct Htl as [t ->]|subst tl]; done.
Qed.

Lemma stages_ok_flushed timed o d f : stages_ok timed o d → calls_flushed f d.
Proof.
  intros H. revert f. induction H as [|k ks d ds Hd _ IH]; intros f; [done|].
  apply calls_flushed_app. split; [by eapply stage_ok_flushed|apply IH].
Qed.

Lemma stage_ok_calls timed k d : stage_ok timed k d → calls d = [k].
Proof.
  destruct 1 as [ts ts'|ts ts' tl Htl]; simpl; [done|].
  destruct timed; [destruct Htl as [t ->]|subst tl]; done.
Qed.

Lemma stages_ok_calls timed o d : stages_ok timed o d → calls d = o.
Proof.
  induction 1 as [|k ks d ds Hd _ IH]; [done|].
  by rewrite calls_app, (stage_ok_calls _ _ _ Hd), IH.
Qed.

Lemma stage_ok_sound timed k d :
  stage_ok timed k d → Forall (λ a, ¬ failing a ∧ a ≠ AOpen) d.
Proof.
  destruct 1 as [ts ts'|ts ts' tl Htl].
  - repeat constructor; simpl; (done || tauto).
  - apply Forall_app. split; [repeat constructor; simpl; (done || tauto)|].
    destruct timed; [destruct Htl as [t ->]|subst tl];
      repeat constructor; simpl; (done || tauto).
Qed.

Lemma stages_ok_sound timed o d :
  stages_ok timed o d → Forall (λ a, ¬ failing a ∧ a ≠ AOpen) d.
Proof.
  induction 1 as [|k ks d ds Hd _ IH]; [constructor|].
  apply Forall_app. split; [by eapply stage_ok_sound|done].
Qed.

Lemma stage_ok_writes timed k d :
  stage_ok timed k d → Forall (λ e, stage_of e.2 = Some k) (writes d).
Proof.
  destruct 1 as [ts ts'|ts ts' tl Htl].
  - by repeat constructor.
  - rewrite writes_app. apply Forall_app. split; [by repeat constructor|].
    destruct timed; [destruct Htl as [t ->]|subst tl]; constructor.
Qed.

Lemma stages_ok_writes timed o d :
  stages_ok timed o d →
  Forall (λ e, ∃ j, stage_of e.2 = Some j ∧ j ∈ o) (writes d).
Proof.
  induction 1 as [|k ks d ds Hd _ IH]; [constructor|].
  rewrite writes_app. apply Forall_app. split.
  - eapply Forall_impl; [by eapply stage_ok_writes|].
    intros e He. exists k. split; [done|]. by left.
  - eapply Forall_impl; [done|].
    intros e (j & He & Hj). exists j. split; [done|]. by right.
Qed.

(** A list has one place at most for its only element with a property. *)
Lemma split_unique {A} (P : A → Prop) (a a' b b' : list A) (x x' : A) :
  a ++ x :: b = a' ++ x' :: b' →
  P x → P x' → Forall (λ y, ¬ P y) a → Forall (λ y, ¬ P y) b →
  a = a' ∧ x = x' ∧ b = b'.
Proof.
  revert a'. induction a as [|y a IH]; intros a' Heq Hx Hx' Ha Hb.
  - destruct a' as [|y' a']; simpl in *.
    + by simplify_eq.
    + simplify_eq. apply Forall_app in Hb as [_ Hb].
      apply Forall_cons in Hb as [Hb _]. done.
  - apply Forall_cons in Ha as [Hy Ha]. destruct a' as [|y' a']; simpl in *.
    + by simplify_eq.
    + injection Heq as -> Heq.
      destruct (IH a' Heq) as (-> & -> & ->); done.
Qed.
Lemma replay_open f d :
  Forall (λ a, a ≠ AOpen) d → buf (replay f (AOpen :: d)) = [] →
  replay f (AOpen :: d) = File (writes (AOpen :: d)) [].
Proof.
  intros Hd Hb. pose proof (replay_writes (File [] []) d Hd) as Hw.
  unfold replay in *. simpl in *. rewrite Hb, app_nil_r in Hw.
  destruct (foldl file_step _ d) as [dk bf]. simpl in *. by subst.
Qed.

Lemma stage_fail_sound k d :
  stage_fail k d →
  ∃ ts ts1 ts2 c,
    c ≠ 0%Z ∧
    d = [AWrite (ts, START k); AFlush] ++ ACall k (Some c) ::
        [AWrite (ts1, FAIL k); AFlush; AWrite (ts2, PIPELINE_FAILURE); AFlush].
Proof. destruct 1 as [ts ts1 ts2 c Hc]. by exists ts, ts1, ts2, c. Qed.

Lemma stages_shape_sound timed order out d :
  stages_shape timed order out d →
  Forall (λ a, a ≠ AOpen) d ∧ (∀ f, calls_flushed f d) ∧
  (∀ f, match out with Return _ => True | _ => buf (replay f d) = [] end).
Proof.
  destruct out as [res|c|k|]; simpl; [| | |done].
  - intros H. split; [|split; [|done]].
    + eapply Forall_impl; [by eapply stages_ok_sound|]. by intros a [_ ?].
    + intros f. by eapply stages_ok_flushed.
  - intros (-> & o1 & k & o2 & d1 & d2 & -> & -> & Hok & Hfail).
    destruct Hfail as [ts ts1 ts2 c Hc]. split; [|split].
    + apply Forall_app. split; [|by repeat constructor].
      eapply Forall_impl; [by eapply stages_ok_sound|]. by intros a [_ ?].
    + intros f. apply calls_flushed_app.
      split; [by eapply stages_ok_flushed|done].
    + intros f. by rewrite replay_app.
  - intros (o1 & o2 & d1 & d2 & -> & -> & Hok & Hmiss).
    destruct Hmiss as [ts]. split; [|split].
    + apply Forall_app. split; [|by repeat constructor].
      eapply Forall_impl; [by eapply stages_ok_sound|]. by intros a [_ ?].
    + intros f. apply calls_flushed_app.
      split; [by eapply stages_ok_flushed|done].
    + intros f. by rewrite replay_app.
Qed.

(** The operations between the [open] and the [close] of a run. *)
Lemma pipeline_shape_body timed order out d :
  pipeline_shape timed order out d →
  ∃ body, d = AOpen :: body ++ [AClose] ∧
          Forall (λ a, a ≠ AOpen) body ∧
          (∀ f, calls_flushed f (AOpen :: body)) ∧
          (∀ f, buf (replay f (AOpen :: body)) = []).
Proof.
  intros (ts & body & -> & Hout).
  exists (AWrite (ts, START_PIPELINE) :: AFlush :: body). split; [done|].
  assert (Forall (λ a, a ≠ AOpen) body ∧ (∀ f, calls_flushed f body) ∧
          (∀ f, buf (replay f body) = [])) as (Hno & Hfl & Hbuf).
  { destruct out as [res|c|k|].
    - destruct Hout as (ds & ts' & -> & Hok). split; [|split].
      + apply Forall_app. split; [|by repeat constructor].
        eapply Forall_impl; [by eapply stages_ok_sound|]. by intros a [_ ?].
      + intros f. apply calls_flushed_app.
        split; [by eapply stages_ok_flushed|done].
      + intros f. by rewrite replay_app.
    - by apply stages_shape_sound in Hout.
    - by apply stages_shape_sound in Hout.
    - done. }
  split; [by repeat constructor|]. split.
  - intros f. simpl. split_and!; first [done|apply Hfl].
  - intros f. apply Hbuf.
Qed.

(** The file a run leaves holds what the run wrote, and nothing else. *)
Lemma pipeline_shape_file timed order out d f :
  pipeline_shape timed order out d → replay f d = File (writes d) [].
Proof.
  intros (body & -> & Hno & Hfl & Hbuf)%pipeline_shape_body.
  apply replay_open.
  - apply Forall_app. split; [done|]. by repeat constructor.
  - change (buf (replay f ((AOpen :: body) ++ [AClose])) = []).
    by rewrite replay_app.
Qed.

(** At every call, the file on disk holds all that was written. *)
Lemma pipeline_shape_call timed order out d f pre k r post :
  pipeline_shape timed order out d →
  d = pre ++ ACall k r :: post →
  replay f pre = File (writes pre) [].
Proof.
  intros (body & -> & Hno & Hfl & Hbuf)%pipeline_shape_body Heq.
  destruct pre as [|a pre]; [done|]. injection Heq as <- Heq.
  assert (ACall k r ∈ body) as Hin.
  { assert (ACall k r ∈ body ++ [AClose]) as Hin'.
    { rewrite Heq. apply elem_of_app. right. by left. }
    apply elem_of_app in Hin' as [?|Hin']; [done|].
    by apply list_elem_of_singleton in Hin'. }
  assert (∃ post', body = pre ++ ACall k r :: post') as [post' ->].
  { destruct post as [|z post _] using rev_ind.
    - apply (app_inj_tail body pre) in Heq as [_ [=]].
    - rewrite app_comm_cons, app_assoc in Heq.
      apply app_inj_tail in Heq as [-> _]. by exists post. }
  apply replay_open.
  - by apply Forall_app in Hno as [? _].
  - specialize (Hfl f). rewrite app_comm_cons in Hfl.
    by eapply calls_flushed_split.
Qed.
(** A call that returns a non-zero status is the last call of the log, and
    what follows it is the two entries of the failure and the [close]. *)
Lemma pipeline_shape_fail timed order out d pre k c post :
  pipeline_shape timed order out d →
  d = pre ++ ACall k (Some c) :: post → c ≠ 0%Z →
  out = SystemExit 3 ∧
  ∃ ts1 ts2 o1 o2,
    post = [AWrite (ts1, FAIL k); AFlush;
            AWrite (ts2, PIPELINE_FAILURE); AFlush; AClose] ∧
    order = o1 ++ k :: o2 ∧
    calls pre = o1 ∧
    Forall (λ e, ∀ j, stage_of e.2 = Some j → j ∈ o1 ++ [k]) (writes pre).
Proof.
  intros (ts & body & Hd & Hout) Heq Hc.
  assert (failing (ACall (Time:=Time) k (Some c))) as Hfail by done.
  assert (∀ l : list (@action Time),
            Forall (λ a, ¬ failing a) l → ACall k (Some c) ∈ l → False) as Hno.
  { intros l Hl Hin. by eapply Forall_forall in Hl. }
  assert (ACall k (Some c) ∈ d) as Hin.
  { rewrite Heq. apply elem_of_app. right. by left. }
  assert (∀ timed o l, stages_ok (Time:=Time) timed o l →
            Forall (λ a, ¬ failing a) l) as Hok.
  { intros t o l H. eapply Forall_impl; [by eapply stages_ok_sound|].
    by intros a [? _]. }
  destruct out as [res|code|k'|].
  - destruct Hout as (ds & ts' & -> & Hds). exfalso. apply (Hno d); [|done].
    rewrite Hd. repeat (apply Forall_cons; split; [simpl; tauto|]).
    rewrite <-app_assoc. apply Forall_app. split; [by eapply Hok|].
    repeat (apply Forall_cons; split; [simpl; tauto|]). constructor.
  - destruct Hout as (-> & o1 & k1 & o2 & d1 & d2 & -> & -> & Hd1 & Hd2).
    split; [done|].
    apply stage_fail_sound in Hd2 as (ts0 & ts1 & ts2 & c1 & Hc1 & ->).
    assert (d = (AOpen :: AWrite (ts, START_PIPELINE) :: AFlush :: d1 ++
                 [AWrite (ts0, START k1); AFlush]) ++
                ACall k1 (Some c1) ::
                [AWrite (ts1, FAIL k1); AFlush;
                 AWrite (ts2, PIPELINE_FAILURE); AFlush; AClose]) as Hd'.
    { rewrite Hd. simpl. by rewrite <-!app_assoc. }
    rewrite Heq in Hd'. symmetry in Hd'.
    apply (split_unique failing) in Hd' as (Hpre & [= <- <-] & <-);
      [|done|done| |].
    + exists ts1, ts2, o1, o2. split; [done|]. split; [done|].
      rewrite <-Hpre. split.
      * simpl. rewrite calls_app, (stages_ok_calls _ _ _ Hd1). simpl.
        by rewrite app_nil_r.
      * simpl. rewrite writes_app. apply Forall_cons. split; [done|].
        apply Forall_app. split.
        -- eapply Forall_impl; [by eapply stages_ok_writes|].
           intros e (j & He & Hj) j'. rewrite He. intros [= <-].
           apply elem_of_app. by left.
        -- simpl. apply Forall_cons. split; [|constructor].
           simpl. intros j [= <-]. apply elem_of_app. right. by left.
    + repeat (apply Forall_cons; split; [simpl; tauto|]).
      apply Forall_app. split; [by eapply Hok|].
      repeat (apply Forall_cons; split; [simpl; tauto|]). constructor.
    + repeat (apply Forall_cons; split; [simpl; tauto|]). constructor.
  - destruct Hout as (o1 & o2 & d1 & d2 & -> & -> & Hd1 & Hd2).
    destruct Hd2 as [ts0]. exfalso. apply (Hno d); [|done].
    rewrite Hd. repeat (apply Forall_cons; split; [simpl; tauto|]).
    rewrite <-app_assoc. apply Forall_app. split; [by eapply Hok|].
    repeat (apply Forall_cons; split; [simpl; tauto|]). constructor.
  - done.
Qed.
End trace_facts.

(** ** The engine *)

Section engine_facts.
Context {World Time : Type}.
Variable now : World → string * World.
Variable default_timer : World → Time * World.
Variable time_sub : Time → Time → Time.
Variable format_2f : Time → string.

Local Abbreviation run_stage := (run_stage now default_timer time_sub format_2f).
Local Abbreviation run_stages := (run_stages now default_timer time_sub format_2f).
Local Abbreviation run_pipeline := (run_pipeline now default_timer time_sub format_2f).
Local Abbreviation execute_dask := (execute_dask now default_timer time_sub format_2f).
Local Abbreviation dask := (gmap string (@runnable World * list string)).
Local Abbreviation timed tf := (bool_decide (is_Some (tf : option string))).

Implicit Types (s : @state World Time) (d : list (@action Time)).

Ltac run_ops :=
  unfold mbind, M_bind, bind, mret, M_ret, ret, get_now, get_timer,
    state_write, state_flush, act, call, update_timing, exit, raise_KeyError;
  simpl.

Lemma run_stage_shape (dsk : dask) tf res k s out s' :
  run_stage dsk tf res k s = (out, s') →
  ∃ d, log s' = log s ++ d ∧
       state_file s' = replay (state_file s) d ∧
       match out with
       | Return _ => stage_ok (timed tf) k d
       | SystemExit c => c = 3%Z ∧ stage_fail k d
       | RaiseKeyError k' => k' = k ∧ stage_missing k d
       | Diverge => False
       end.
Proof.
  unfold Engine.run_stage. run_ops.
  destruct (now (world s)) as [ts0 w0]. simpl.
  destruct (now w0) as [ts1 w1]. simpl.
  destruct (default_timer w1) as [t0 w2]. simpl.
  destruct (dsk !! k) as [[f deps]|]; run_ops.
  - destruct (f w2) as [r w3]. simpl.
    destruct (default_timer w3) as [t1 w4]. simpl.
    destruct r as [c|]; [case_decide as Hc|]; run_ops.
    + destruct (now w4) as [ts2 w5]. simpl. subst c.
      destruct tf as [path|]; run_ops; intros [= <- <-]; simpl;
        eexists; (split; [by rewrite <-!app_assoc|]); (split; [done|]).
      * apply (stage_done true k ts1 ts2). by eexists.
      * by apply (stage_done false k ts1 ts2).
    + destruct (now w4) as [ts2 w5]. simpl.
      destruct (now w5) as [ts3 w6]. simpl.
      intros [= <- <-]. simpl.
      eexists. split; [by rewrite <-!app_assoc|]. split; [done|].
      split; [done|]. by constructor.
    + destruct (now w4) as [ts2 w5]. simpl.
      intros [= <- <-]. simpl.
      eexists. split; [by rewrite <-!app_assoc|]. split; [done|].
      constructor.
  - intros [= <- <-]. simpl.
    eexists. split; [by rewrite <-!app_assoc|]. split; [done|].
    split; [done|]. constructor.
Qed.


Lemma run_stages_shape (dsk : dask) tf order res s out s' :
  run_stages dsk tf res order s = (out, s') →
  ∃ d, log s' = log s ++ d ∧
       state_file s' = replay (state_file s) d ∧
       stages_shape (timed tf) order out d.
Proof.
  revert res s. induction order as [|k order IH]; intros res s; simpl.
  - run_ops. intros [= <- <-]. exists []. rewrite app_nil_r.
    split; [done|]. split; [done|]. constructor.
  - unfold mbind, M_bind, bind.
    destruct (run_stage dsk tf res k s) as [o1 s1] eqn:H1.
    destruct (run_stage_shape _ _ _ _ _ _ _ H1) as (d1 & Hl1 & Hf1 & Hs1).
    destruct o1 as [res1|c|k'|]; [|intros [= <- <-]..].
    + intros H2. destruct (IH _ _ H2) as (d2 & Hl2 & Hf2 & Hs2).
      exists (d1 ++ d2). rewrite Hl2, Hl1, Hf2, Hf1.
      split; [by rewrite app_assoc|]. split; [by unfold replay; rewrite foldl_app|].
      destruct out as [res2|c|k'|]; simpl in *.
      * by constructor.
      * destruct Hs2 as (-> & o1 & k2 & o2 & e1 & e2 & -> & -> & Hok & Hfail).
        split; [done|]. exists (k :: o1), k2, o2, (d1 ++ e1), e2.
        split; [done|]. split; [by rewrite app_assoc|]. split; [|done].
        by constructor.
      * destruct Hs2 as (o1 & o2 & e1 & e2 & -> & -> & Hok & Hmiss).
        exists (k :: o1), o2, (d1 ++ e1), e2.
        split; [done|]. split; [by rewrite app_assoc|]. split; [|done].
        by constructor.
      * done.
    + exists d1. split; [done|]. split; [done|]. destruct Hs1 as [-> Hfail].
      split; [done|]. exists [], k, order, [], d1.
      split; [done|]. split; [done|]. split; [constructor|done].
    + exists d1. split; [done|]. split; [done|]. destruct Hs1 as [-> Hmiss].
      exists [], order, [], d1.
      split; [done|]. split; [done|]. split; [constructor|done].
    + done.
Qed.

Lemma run_pipeline_shape (dsk : dask) tf order s out s' :
  run_pipeline dsk tf order s = (out, s') →
  ∃ d, log s' = log s ++ d ∧
       state_file s' = replay (state_file s) d ∧
       pipeline_shape (timed tf) order out d.
Proof.
  unfold Engine.run_pipeline, with_open. run_ops.
  destruct (now (world s)) as [ts0 w0]. simpl.
  match goal with
  | |- context [Engine.run_stages _ _ _ _ _ _ ?r _ ?s0] =>
      destruct (run_stages dsk tf r order s0) as [o1 s1] eqn:H1
  end.
  destruct (run_stages_shape _ _ _ _ _ _ _ H1) as (d1 & Hl1 & Hf1 & Hs1).
  simpl in Hl1, Hf1.
  destruct o1 as [res1|c|k'|]; simpl.
  - destruct (now (world s1)) as [ts1 w1]. simpl. intros [= <- <-]. simpl.
    exists (AOpen :: AWrite (ts0, START_PIPELINE) :: AFlush ::
            (d1 ++ [AWrite (ts1, PIPELINE_SUCCESS); AFlush]) ++ [AClose]).
    rewrite Hl1, Hf1. split; [by rewrite <-!app_assoc|].
    split; [unfold replay; simpl; rewrite !foldl_app; simpl;
            by rewrite <-?app_assoc, ?app_nil_r|].
    exists ts0, (d1 ++ [AWrite (ts1, PIPELINE_SUCCESS); AFlush]).
    split; [done|]. by exists d1, ts1.
  - intros [= <- <-]. simpl.
    exists (AOpen :: AWrite (ts0, START_PIPELINE) :: AFlush :: d1 ++ [AClose]).
    rewrite Hl1, Hf1. split; [by rewrite <-!app_assoc|].
    split; [unfold replay; simpl; rewrite !foldl_app; simpl;
            by rewrite <-?app_assoc, ?app_nil_r|].
    by exists ts0, d1.
  - intros [= <- <-]. simpl.
    exists (AOpen :: AWrite (ts0, START_PIPELINE) :: AFlush :: d1 ++ [AClose]).
    rewrite Hl1, Hf1. split; [by rewrite <-!app_assoc|].
    split; [unfold replay; simpl; rewrite !foldl_app; simpl;
            by rewrite <-?app_assoc, ?app_nil_r|].
    by exists ts0, d1.
  - done.
Qed.

(** C2. When the stage called at some position of the order returns a status
    that is not [None] and not zero, the engine writes [FAIL k], then
    [PIPELINE_FAILURE], and leaves with exit status 3: nothing follows in
    the log but these two flushed writes and the closing of the state file.
    The stages called are those of the order up to that position, and the
    ledger has entries for these stages only. *)
Theorem fail_fast (dsk : dask) tf order s out s' pre k c post :
  run_pipeline dsk tf order s = (out, s') →
  log s' = log s ++ pre ++ ACall k (Some c) :: post →
  c ≠ 0%Z →
  out = SystemExit 3 ∧
  ∃ ts1 ts2 o1 o2,
    post = [AWrite (ts1, FAIL k); AFlush;
            AWrite (ts2, PIPELINE_FAILURE); AFlush; AClose] ∧
    order = o1 ++ k :: o2 ∧
    calls (pre ++ ACall k (Some c) :: post) = o1 ++ [k] ∧
    state_file s' =
      File (writes pre ++ [(ts1, FAIL k); (ts2, PIPELINE_FAILURE)]) [] ∧
    (∀ e j, e ∈ disk (state_file s') → stage_of e.2 = Some j →
            j ∈ o1 ++ [k]) ∧
    (NoDup order → ∀ e j, e ∈ disk (state_file s') → j ∈ o2 →
                   stage_of e.2 ≠ Some j).
Proof.
  intros Hrun Hlog Hc.
  destruct (run_pipeline_shape _ _ _ _ _ _ Hrun) as (d & Hl & Hf & Hshape).
  rewrite Hl in Hlog. apply app_inv_head in Hlog.
  destruct (pipeline_shape_fail _ _ _ _ _ _ _ _ Hshape Hlog Hc)
    as (-> & ts1 & ts2 & o1 & o2 & -> & -> & Hcalls & Hw).
  split; [done|]. exists ts1, ts2, o1, o2.
  rewrite (pipeline_shape_file _ _ _ _ (state_file s) Hshape) in Hf.
  rewrite Hlog, writes_app in Hf. simpl in Hf.
  assert (∀ e j, e ∈ disk (state_file s') → stage_of e.2 = Some j →
                 j ∈ o1 ++ [k]) as Hentries.
  { intros e j. rewrite Hf. simpl. intros [He|He]%elem_of_app Hj.
    - eapply Forall_forall in Hw; [|done]. by apply Hw.
    - apply elem_of_cons in He as [->|He]; simpl in Hj.
      + injection Hj as <-. apply elem_of_app. right. by left.
      + apply list_elem_of_singleton in He as ->. done. }
  split_and!; try done.
  - rewrite calls_app, Hcalls. done.
  - intros Hnd e j He Hj Hst. specialize (Hentries e j He Hst).
    rewrite cons_middle, app_assoc in Hnd.
    apply NoDup_app in Hnd as (_ & Hnd & _). by apply (Hnd j).
Qed.

(** C5. Whenever the engine calls a stage, and when it has written its last
    entry, the state file on disk holds every entry written so far and the
    buffer of the file object is empty. At any time the entries on disk,
    followed by those in the buffer, are the entries written, in the order
    of the writes. An [END_WITHOUT_RUN] entry, which is written without a
    flush of its own, is on disk when the next stage is called. *)
Theorem ledger_flushed_before_calls (dsk : dask) tf order s out s' :
  run_pipeline dsk tf order s = (out, s') →
  ∃ body,
    log s' = log s ++ body ++ [AClose] ∧
    (∀ pre k r post,
       body = pre ++ ACall k r :: post →
       replay (state_file s) pre = File (writes pre) []) ∧
    replay (state_file s) body = File (writes body) [] ∧
    (∀ pre post,
       body = pre ++ post → pre ≠ [] →
       disk (replay (state_file s) pre) ++ buf (replay (state_file s) pre)
       = writes pre) ∧
    (∀ pre ts j mid k r post,
       body = pre ++ AWrite (ts, END_WITHOUT_RUN j) :: mid ++ ACall k r :: post →
       (ts, END_WITHOUT_RUN j)
       ∈ disk (replay (state_file s)
                      (pre ++ AWrite (ts, END_WITHOUT_RUN j) :: mid))).
Proof.
  intros Hrun.
  destruct (run_pipeline_shape _ _ _ _ _ _ Hrun) as (d & Hl & Hf & Hshape).
  destruct (pipeline_shape_body _ _ _ _ Hshape) as (body & -> & Hno & Hfl & Hbuf).
  assert (∀ pre k r post,
            AOpen :: body = pre ++ ACall k r :: post →
            replay (state_file s) pre = File (writes pre) []) as Hcall.
  { intros pre k r post Heq.
    apply (pipeline_shape_call _ _ _ _ _ pre k r (post ++ [AClose]) Hshape).
    rewrite app_comm_cons, Heq. by rewrite <-app_assoc. }
  exists (AOpen :: body). split; [done|]. split; [done|]. split; [|split].
  - by apply replay_open.
  - intros [|a pre] post Heq Hne; [done|]. injection Heq as <- ->.
    apply Forall_app in Hno as [Hno _].
    pose proof (replay_writes (File [] []) pre Hno) as Hw.
    exact Hw.
  - intros pre ts j mid k r post Heq.
    rewrite (Hcall (pre ++ AWrite (ts, END_WITHOUT_RUN j) :: mid) k r post);
      [|by rewrite Heq, <-app_assoc].
    simpl. rewrite writes_app. apply elem_of_app. right. by left.
Qed.

(** C10. A run that resolves its order opens the state file for writing:
    whatever the file held before, it holds afterwards the entries of this
    run and no other, the first of them [START_PIPELINE]. *)
Theorem ledger_truncated (dsk : dask) key tf order s out s' :
  Topo.topo_order (snd <$> dsk) key = Topo.Ok order →
  execute_dask dsk key tf s = (out, s') →
  ∃ d ts rest,
    log s' = log s ++ AOpen :: d ∧
    state_file s' = File (writes d) [] ∧
    writes d = (ts, START_PIPELINE) :: rest.
Proof.
  intros Hord. unfold Engine.execute_dask. rewrite Hord. intros Hrun.
  destruct (run_pipeline_shape _ _ _ _ _ _ Hrun) as (d & Hl & Hf & Hshape).
  rewrite (pipeline_shape_file _ _ _ _ (state_file s) Hshape) in Hf.
  destruct Hshape as (ts & body & -> & _).
  eexists _, ts, _. split; [done|]. split; [done|]. done.
Qed.
End engine_facts.

(** ** Strings *)

Section string_facts.
Implicit Types (s a b : string) (c : ascii).

Lemma append_cons c a b : String c a +:+ b = String c (a +:+ b).
Proof. reflexivity. Qed.

Lemma append_nil_l s : "" +:+ s = s.
Proof. reflexivity. Qed.

Ltac sapp := rewrite ?append_cons, ?append_nil_l; simpl.

Lemma append_nil_r s : s +:+ "" = s.
Proof. induction s as [|c s IH]; sapp; [done|by rewrite IH]. Qed.

Lemma append_assoc a b s : (a +:+ b) +:+ s = a +:+ (b +:+ s).
Proof. induction a as [|c a IH]; sapp; [done|by rewrite IH]. Qed.


Lemma contains_app c a b :
  Str.contains c (a +:+ b) = Str.contains c a || Str.contains c b.
Proof. induction a as [|x a IH]; sapp; [done|]. by case_decide. Qed.














End string_facts.

(** ** The timing file *)

Import Timing.

Section timing_facts.
Implicit Types (t acc : timings) (k name line : string) (v : list string).

Lemma contains_join c l :
  Str.contains c "," = false →
  Forall (λ x, Str.contains c x = false) l →
  Str.contains c (Str.join "," l) = false.
Proof.
  intros Hc. induction l as [|x l IH]; [done|]. intros [Hx Hl]%Forall_cons.
  destruct l as [|y l]; [done|].
  change (Str.contains c (x +:+ "," +:+ Str.join "," (y :: l)) = false).
  rewrite !contains_app, Hx, Hc. by rewrite IH.
Qed.


Lemma write_line_body kv : write_line kv = line_body kv +:+ String "010" "".
Proof.
  unfold write_line, line_body. rewrite append_cons, append_nil_l.
  by rewrite append_assoc, append_cons.
Qed.

Lemma line_body_no c k v :
  Str.contains c "," = false → Str.contains c k = false →
  Forall (λ x, Str.contains c x = false) v →
  Str.contains c (line_body (k, v)) = false.
Proof.
  intros Hc Hk Hv. unfold line_body. simpl.
  change (String "," (Str.join "," v)) with ("," +:+ Str.join "," v).
  rewrite !contains_app, Hk, Hc. by rewrite contains_join.
Qed.



Lemma write_timings_cons kv t :
  write_timings (kv :: t) = line_body kv +:+ String "010" (write_timings t).
Proof.
  unfold write_timings. simpl. rewrite write_line_body.
  by rewrite append_assoc, append_cons, append_nil_l.
Qed.

Lemma write_timings_no c t :
  c ≠ "010"%char → Str.contains c "," = false →
  Forall (λ kv, Str.contains c kv.1 = false ∧
                Forall (λ x, Str.contains c x = false) kv.2) t →
  Str.contains c (write_timings t) = false.
Proof.
  intros Hc Hcomma. induction 1 as [|[k v] t [Hk Hv] _ IH]; [done|].
  rewrite write_timings_cons, contains_app, line_body_no by done.
  simpl. by rewrite decide_False.
Qed.





End timing_facts.

Section dict_facts.
Context {V : Type}.
Implicit Types (d : list (string * V)) (k : string) (v : V).


Lemma dict_get_None d k : Dict.get d k = None ↔ k ∉ d.*1.
Proof.
  induction d as [|[k0 v0] d IH]; simpl.
  - split; [intros _; apply not_elem_of_nil|done].
  - rewrite not_elem_of_cons. case_decide; [|naive_solver].
    split; [done|]. by intros [? _].
Qed.

Lemma dict_get_Some d k v : Dict.get d k = Some v → (k, v) ∈ d.
Proof.
  induction d as [|[k0 v0] d IH]; simpl; [done|].
  case_decide; [intros [= ->]; subst; by left|]. intros Hg. right. by apply IH.
Qed.


Lemma dict_set_Forall (P : string * V → Prop) d k v :
  Forall P d → P (k, v) → Forall P (Dict.set d k v).
Proof.
  intros Hd Hkv. induction Hd as [|[k0 v0] d H0 Hd IH]; simpl.
  - by repeat constructor.
  - case_decide; [subst|]; by constructor.
Qed.
End dict_facts.


(** ** The timing store across runs *)

Section timing_store.
Context {World Time : Type}.
Variable now : World → string * World.
Variable default_timer : World → Time * World.
Variable time_sub : Time → Time → Time.
Variable format_2f : Time → string.

Local Abbreviation update_timing := (Timing.update_timing format_2f).

Lemma update_timing_writes file name time :
  update_timing file name time
  = write_timings
      (Dict.set (timings_of file) name
         (default [] (Dict.get (timings_of file) name) ++ [format_2f time])).
Proof.
  unfold Timing.update_timing, timings_of, Py.append.
  by destruct file; destruct (Dict.get _ name).
Qed.




End timing_store.

(** ** The workspace manager *)

Import Workspace.

Section order_facts.
Implicit Types (a b c : string).

Lemma ascii_compare_refl (x : ascii) : Ascii.compare x x = Eq.
Proof. unfold Ascii.compare. apply N.compare_refl. Qed.

Lemma ascii_compare_trans (x y z : ascii) :
  Ascii.compare x y = Lt → Ascii.compare y z = Lt → Ascii.compare x z = Lt.
Proof.
  unfold Ascii.compare. rewrite !N.compare_lt_iff. apply N.lt_trans.
Qed.

Lemma string_compare_refl a : String.compare a a = Eq.
Proof.
  induction a as [|x a IH]; simpl; [done|]. by rewrite ascii_compare_refl.
Qed.

Lemma string_compare_trans a b c :
  String.compare a b ≠ Gt → String.compare b c ≠ Gt → String.compare a c ≠ Gt.
Proof.
  revert b c. induction a as [|x a IH]; intros [|y b] [|z c]; simpl; try done.
  destruct (Ascii.compare x y) eqn:Hxy; [| |done];
    destruct (Ascii.compare y z) eqn:Hyz; try done.
  - apply Ascii.compare_eq_iff in Hxy as ->.
    apply Ascii.compare_eq_iff in Hyz as ->.
    rewrite ascii_compare_refl. apply IH.
  - apply Ascii.compare_eq_iff in Hxy as ->. by rewrite Hyz.
  - apply Ascii.compare_eq_iff in Hyz as <-. by rewrite Hxy.
  - by rewrite (ascii_compare_trans _ _ _ Hxy Hyz).
Qed.

Lemma str_le_compare a b : str_le a b ↔ String.compare a b ≠ Gt.
Proof. unfold str_le, String.leb. by destruct (String.compare a b). Qed.

#[global] Instance str_le_refl : Reflexive str_le.
Proof. intros a. apply str_le_compare. by rewrite string_compare_refl. Qed.

#[global] Instance str_le_trans : Transitive str_le.
Proof.
  intros a b c. rewrite !str_le_compare. apply string_compare_trans.
Qed.

#[global] Instance str_le_total : Total str_le.
Proof. intros a b. apply String.leb_total. Qed.

#[global] Instance str_le_antisymm : AntiSymm (=) str_le.
Proof. intros a b. apply String.leb_antisym. Qed.

Lemma sorted_perm l : sorted l ≡ₚ l.
Proof. apply merge_sort_Permutation. Qed.

Lemma sorted_length l : length (sorted l) = length l.
Proof. by rewrite sorted_perm. Qed.

Lemma sorted_elem_of l x : x ∈ sorted l ↔ x ∈ l.
Proof. by rewrite sorted_perm. Qed.

(** The last element of a sorted list is its greatest. *)
Lemma sorted_last l m x : last (sorted l) = Some m → x ∈ l → str_le x m.
Proof.
  intros (l' & Hl)%last_Some Hx. apply sorted_elem_of in Hx.
  pose proof (StronglySorted_merge_sort str_le l) as Hs. fold (sorted l) in Hs.
  rewrite Hl in Hs, Hx. apply elem_of_app in Hx as [Hx|Hx].
  - eapply StronglySorted_app_1_elem_of; [done..|by left].
  - by apply list_elem_of_singleton in Hx as ->.
Qed.
End order_facts.

Section path_facts.
Implicit Types (a b s pre rest root name ext : string) (fs : dirs) (n m : nat).














Lemma elem_of_glob_star pre fs p :
  p ∈ glob_star pre fs ↔ p ∈ fs ∧ matches pre p = true.
Proof.
  unfold glob_star. rewrite list_elem_of_filter, elem_of_elements. tauto.
Qed.


End path_facts.


Section workspace_facts.
Implicit Types (root name p d : string) (fs : dirs) (n : nat).



End workspace_facts.


(** Such a state comes about through the resolutions of the pipeline itself:
    clobbering [image_smooth_slow] lowers the count of the matches of
    [image_smooth] to a number that is in use. *)
Lemma versioned_collision_reachable :
  make_working_dir "/r" "image_smooth" 2
    (after "/r" ∅ [("image_smooth_slow", 2%Z); ("image_smooth", 2%Z);
                   ("image_smooth_slow", 2%Z); ("image_smooth", 2%Z);
                   ("image_smooth_slow", 1%Z)])
  = Raised (FileExistsError "/r/image_smooth_3")
      {["/r/image_smooth_1"; "/r/image_smooth_3"; "/r/image_smooth_slow"]}.
Proof. vm_compute. reflexivity. Qed.



Section clobber_facts.
Implicit Types (root name p d x : string) (fs : dirs) (prev : list string).



End clobber_facts.




(** ** The engine on the small pipeline *)

Lemma fail_fast_witness :
  (Demo.run ["a"; "b"; "c"; "d"]).1 = SystemExit 3.
Proof.
  refine (proj1 (fail_fast Demo.now Demo.default_timer Nat.sub Demo.format_2f
                   Demo.dsk (Some "timing.txt") ["a"; "b"; "c"; "d"] Demo.s0
                   _ (Demo.run ["a"; "b"; "c"; "d"]).2
                   (take 15 (log (Demo.run ["a"; "b"; "c"; "d"]).2)) "c" 2
                   (drop 16 (log (Demo.run ["a"; "b"; "c"; "d"]).2))
                   _ _ _)).
  - apply surjective_pairing.
  - vm_compute. reflexivity.
  - discriminate.
Defined.

Lemma ledger_flushed_before_calls_witness :
  ∃ body,
    log (Demo.run ["a"; "b"]).2 = log Demo.s0 ++ body ++ [AClose] ∧
    replay (state_file Demo.s0) body = File (writes body) [].
Proof.
  destruct (ledger_flushed_before_calls Demo.now Demo.default_timer Nat.sub
              Demo.format_2f Demo.dsk (Some "timing.txt") ["a"; "b"] Demo.s0
              (Demo.run ["a"; "b"]).1 (Demo.run ["a"; "b"]).2)
    as (body & Hlog & _ & Hend & _).
  - apply surjective_pairing.
  - exists body. split; [exact Hlog|exact Hend].
Defined.

Lemma ledger_truncated_witness :
  ∃ d ts rest,
    log (Demo.exec "b").2 = log Demo.s0 ++ AOpen :: d ∧
    state_file (Demo.exec "b").2 = File (writes d) [] ∧
    writes d = (ts, START_PIPELINE) :: rest.
Proof.
  apply (ledger_truncated Demo.now Demo.default_timer Nat.sub Demo.format_2f
           Demo.dsk "b" (Some "timing.txt") ["a"; "b"] Demo.s0
           (Demo.exec "b").1).
  - vm_compute. reflexivity.
  - apply surjective_pairing.
Defined.


(** ** The resolution on any graph *)

Import Topo Graph.

Section scan_facts.
Variable g : graph.
Variable start : string.
Implicit Types (s : vars) (x y c v : string).

Lemma app_head_cons {A} (l1 l2 r : list A) (a : A) :
  l1 ++ l2 = a :: r → l1 ≠ [] → ∃ r1, l1 = a :: r1.
Proof. destruct l1 as [|b l1]; [done|]. intros [= -> _] _. by eexists. Qed.

Lemma step_scan s :
  scan g start s →
  (step g s = None ∧ q s = []) ∨
  (∃ s', step g s = Some (Ok s') ∧ scan g start s') ∨
  (∃ k, step g s = Some (KeyError k) ∧ g !! k = None ∧ closure g start k).
Proof.
  intros [Hseen Hnd [rest0 Hbot] Hal Hdone Hkeys Hreach].
  unfold step. destruct (Py.pop (q s)) as [[q' v]|] eqn:Hpop; last first.
  { left. split; [done|]. by apply pop_None. }
  right. pose proof (pop_reverse _ _ _ Hpop) as Hrq. rewrite Hrq in Hal.
  case_decide as Hv.
  { left. eexists. split; [done|]. split; simpl; try done.
    - by exists rest0.
    - by apply (aligned_pop g (seen s) (seen s) _ _ v). }
  destruct (aligned_edge g _ _ _ v Hal) as (x0 & Hx0 & Hx0v); [by left|].
  assert (closure g start v) as Hcv.
  { eapply rtc_r; [|exact Hx0v]. apply Hreach, Hseen, elem_of_app. left.
    by apply elem_of_reverse. }
  destruct (g !! v) as [deps|] eqn:Hdeps; [left|right; by exists v].
  destruct (unwind_spec g _ _ _ _ (order s) Hal)
    as (p & rs' & -> & Hrs & (x & rest & -> & Hxv) & Hal' & Hpseen).
  eexists. split; [done|].
  assert (stack s = reverse (x :: rest) ++ reverse p) as Hst.
  { by rewrite <-reverse_app, <-Hrs, reverse_involutive. }
  assert (∀ y, y ∈ p ++ x :: rest ↔ y ∈ stack s) as Hrst.
  { intros y. by rewrite <-Hrs, elem_of_reverse. }
  unfold Py.append, Py.extend. split; simpl.
  - intros y. rewrite elem_of_union, elem_of_singleton, Hseen.
    rewrite !elem_of_app, <-Hrst, !elem_of_app, elem_of_reverse.
    rewrite list_elem_of_singleton. tauto.
  - assert ((reverse (x :: rest) ++ [v]) ++ order s ++ p
            ≡ₚ v :: (reverse (x :: rest) ++ reverse p) ++ order s) as ->.
    { rewrite (reverse_Permutation p). solve_Permutation. }
    apply NoDup_cons. rewrite <-Hst. split; [|done].
    intros Hin. by apply Hv, Hseen.
  - rewrite Hbot in Hst. symmetry in Hst.
    apply app_head_cons in Hst as [r1 ->]; [by eexists|].
    rewrite reverse_cons. by destruct (reverse rest).
  - rewrite reverse_snoc, reverse_involutive, reverse_app.
    apply (aligned_cons _ _ v deps); [done| | |].
    + intros c. by rewrite elem_of_reverse.
    + intros c Hc _. by rewrite elem_of_reverse.
    + apply (aligned_pop g (seen s) _ _ _ v);
        [|by apply elem_of_union_l, elem_of_singleton|done].
      apply union_subseteq_r.
  - intros y c [Hy|Hy]%elem_of_app Hyc; apply elem_of_union; right.
    + by eapply Hdone.
    + by eapply Hpseen.
  - intros y [->%elem_of_singleton|Hy]%elem_of_union; [done|by apply Hkeys].
  - intros y [->%elem_of_singleton|Hy]%elem_of_union; [done|by apply Hreach].
Qed.

Lemma exit_scan s :
  scan g start s → q s = [] →
  sort_outcome g start (Ok (stack s ++ reverse (order s))).
Proof.
  intros [Hseen Hnd [rest0 Hbot] Hal Hdone Hkeys Hreach] Hq.
  rewrite Hq, reverse_nil in Hal.
  assert (∀ x, x ∈ stack s ++ reverse (order s) ↔ x ∈ seen s) as Hin.
  { intros x. rewrite Hseen, !elem_of_app, elem_of_reverse. tauto. }
  split; [|split; [|split]].
  - rewrite Hbot. by eexists.
  - by rewrite reverse_Permutation.
  - intros x. rewrite Hin. split; [by apply Hreach|]. intros Hx.
    apply (rtc_ind_r (R:=edge g) (λ z, z ∈ seen s) start); [| |exact Hx].
    + apply Hseen. rewrite Hbot. by left.
    + intros y c _ Hyc Hy. apply Hseen, elem_of_app in Hy as [Hy|Hy].
      * apply (aligned_done g _ _ y c Hal); [|done]. by apply elem_of_reverse.
      * by eapply Hdone.
  - intros x Hx. by apply Hkeys, Hin.
Qed.

Lemma loop_scan fuel s :
  scan g start s → measure g s ≤ fuel → sort_outcome g start (loop fuel g s).
Proof.
  revert s. induction fuel as [|fuel IH]; intros s Hinv Hm;
    destruct (step_scan s Hinv)
      as [[Hs Hq]|[(s' & Hs & Hinv')|(k & Hs & Hk & Hck)]];
    simpl; rewrite Hs; try done.
  - by apply exit_scan.
  - apply step_measure in Hs. lia.
  - by apply exit_scan.
  - apply IH; [done|]. apply step_measure in Hs. lia.
Qed.

Lemma scan_first deps :
  g !! start = Some deps →
  scan g start (Vars ({[start]} ∪ ∅) (Py.append (reverse []) start) []
                     (Py.extend [] deps)).
Proof.
  intros Hd. unfold Py.append, Py.extend. split; simpl.
  - intros x. rewrite elem_of_union, elem_of_singleton, list_elem_of_singleton.
    pose proof (not_elem_of_empty (C:=gset string) x). tauto.
  - apply NoDup_singleton.
  - by eexists.
  - rewrite <-(app_nil_r (reverse deps)).
    apply (aligned_cons _ _ start deps); [done| | |constructor].
    + intros c. by rewrite elem_of_reverse.
    + intros c Hc _. by rewrite elem_of_reverse.
  - intros y c Hy. by apply elem_of_nil in Hy.
  - intros y [->%elem_of_singleton|Hy]%elem_of_union; [done|].
    by apply not_elem_of_empty in Hy.
  - intros x [->%elem_of_singleton|Hx]%elem_of_union; [constructor|].
    by apply not_elem_of_empty in Hx.
Qed.

Lemma sort_scan : sort_outcome g start (iterative_topological_sort g start).
Proof.
  unfold iterative_topological_sort, fuel_of. simpl.
  unfold step. simpl. rewrite decide_False by apply not_elem_of_empty.
  destruct (g !! start) as [deps|] eqn:Hd; simpl; [|by split; [|constructor]].
  apply loop_scan; [by apply scan_first|].
  unfold measure, Py.extend. simpl.
  pose proof (weight_unseen g ∅ start deps Hd (not_elem_of_empty _)) as Hw.
  rewrite (map_filter_id _ g) in Hw; [lia|].
  intros i x _. apply not_elem_of_empty.
Qed.

(** A result found with some amount of fuel is the result of the run. *)
Lemma loop_result fuel L :
  loop fuel g (init start) = Ok L → iterative_topological_sort g start = Ok L.
Proof.
  intros HL. unfold iterative_topological_sort.
  destruct (decide (fuel ≤ fuel_of g)) as [Hle|Hgt].
  - rewrite (loop_more g fuel) by (done || by rewrite HL). done.
  - pose proof (sort_terminates g start) as Hterm.
    unfold iterative_topological_sort in Hterm.
    rewrite <-(loop_more g (fuel_of g) fuel), HL by (done || lia). done.
Qed.
End scan_facts.

(** X1. On any graph, with cycles or without, in which every node that can
    be reached from the start node is a key, the resolution returns: the list
    begins with the start node and holds every node that can be reached from
    it, once, and no other node. *)
Theorem sort_any_graph (g : graph) (start : string) :
  (∀ x, closure g start x → is_Some (g !! x)) →
  ∃ rest, iterative_topological_sort g start = Ok (start :: rest) ∧
          NoDup (start :: rest) ∧
          ∀ x, x ∈ start :: rest ↔ closure g start x.
Proof.
  intros Hkeys. pose proof (sort_scan g start) as H.
  destruct (iterative_topological_sort g start) as [L|k|]; simpl in H.
  - destruct H as ([rest ->] & Hnd & Hin & _). by exists rest.
  - destruct H as [Hk Hc]. apply Hkeys in Hc as [? ?]. congruence.
  - done.
Qed.

Lemma sort_any_graph_witness :
  ∃ rest, iterative_topological_sort g_cycle "a" = Ok ("a" :: rest) ∧
          NoDup ("a" :: rest) ∧
          ∀ x, x ∈ "a" :: rest ↔ closure g_cycle "a" x.
Proof.
  apply (sort_any_graph g_cycle "a").
  intros x Hx. apply rtc_inv_r in Hx as [<-|(y & _ & Hy)].
  - apply (bool_decide_unpack _). vm_compute. reflexivity.
  - eapply closed_check; [|exact Hy].
    apply (bool_decide_unpack _). vm_compute. reflexivity.
Defined.

(** X2. The resolution raises [KeyError] when, and only when, a node that
    can be reached from the start node is no key of the graph; the key of
    the error is such a node. A start node that is no key is the key of the
    error. On no graph does the loop run for ever. *)
Theorem sort_key_error (g : graph) (start : string) :
  ((∃ x, closure g start x ∧ g !! x = None) ↔
   ∃ k, iterative_topological_sort g start = KeyError k) ∧
  (∀ k, iterative_topological_sort g start = KeyError k →
        g !! k = None ∧ closure g start k) ∧
  (g !! start = None → iterative_topological_sort g start = KeyError start) ∧
  iterative_topological_sort g start ≠ OutOfFuel.
Proof.
  pose proof (sort_scan g start) as H.
  split_and!.
  - split.
    + intros (x & Hx & Hnone).
      destruct (iterative_topological_sort g start) as [L|k|]; simpl in H;
        [|by eexists|done].
      destruct H as (_ & _ & Hin & Hkeys).
      apply Hin, Hkeys in Hx as [? ?]. congruence.
    + intros [k Hk]. rewrite Hk in H. destruct H as [? ?]. by exists k.
  - intros k Hk. by rewrite Hk in H.
  - intros Hs. unfold iterative_topological_sort, fuel_of. simpl.
    unfold step. simpl. rewrite decide_False by apply not_elem_of_empty.
    by rewrite Hs.
  - by destruct (iterative_topological_sort g start).
Qed.

Section flat.
Variable g : graph.
Variables (t : string) (ds : list string).
Hypothesis Ht : g !! t = Some ds.
Hypothesis Hleaf : ∀ d, d ∈ ds → g !! d = Some [].

Lemma flat_target : t ∉ ds.
Proof. intros Hin. pose proof (Hleaf t Hin) as H. simplify_eq. set_solver. Qed.

Lemma flat_step rem done v :
  v ∈ ds → v ∉ done → (∀ x, x ∈ done → x ∈ ds) →
  step g (flat_state t (rem ++ [v]) done)
  = Some (Ok (flat_state t rem (done ++ [v]))).
Proof.
  intros Hv Hnew Hdone. unfold flat_state.
  assert (v ∉ ({[t]} ∪ list_to_set done : gset string)) as Hseen.
  { rewrite not_elem_of_union, not_elem_of_singleton, elem_of_list_to_set.
    split; [|done]. intros ->. by apply flat_target. }
  rewrite (step_visit g _ _ _ rem v [] [t] done Hseen (Hleaf v Hv)).
  - rewrite last_snoc, removelast_last, app_nil_r. do 2 f_equal.
    f_equal. rewrite list_to_set_app_L. set_solver.
  - destruct done as [|x done' _] using rev_ind.
    + simpl. rewrite Ht. by rewrite decide_True.
    + rewrite last_snoc, removelast_last. simpl.
      rewrite (Hleaf x); [|apply Hdone, elem_of_app; right; by left].
      rewrite decide_False by apply not_elem_of_nil. simpl.
      rewrite Ht. by rewrite decide_True.
Qed.

Lemma flat_loop fuel rem done :
  length rem ≤ fuel → NoDup (rem ++ done) → (∀ x, x ∈ rem ++ done → x ∈ ds) →
  loop fuel g (flat_state t rem done)
  = Ok (let all := done ++ reverse rem in
        (t :: match last all with Some x => [x] | None => [] end)
        ++ reverse (removelast all)).
Proof.
  revert fuel done. induction rem as [|v rem IH] using rev_ind;
    intros fuel done Hfuel Hnd Hin.
  - simpl. rewrite app_nil_r. by destruct fuel.
  - rewrite length_app in Hfuel. simpl in Hfuel.
    destruct fuel as [|fuel]; [lia|].
    rewrite (loop_next g fuel _ (flat_state t rem (done ++ [v]))); last first.
    { apply flat_step.
      - apply Hin. rewrite !elem_of_app, list_elem_of_singleton. tauto.
      - rewrite <-app_assoc in Hnd. apply NoDup_app in Hnd as (_ & _ & Hnd).
        apply NoDup_cons in Hnd as [? _]. done.
      - intros x Hx. apply Hin. apply elem_of_app. by right. }
    rewrite IH.
    + by rewrite reverse_snoc, <-app_assoc.
    + lia.
    + assert ((rem ++ [v]) ++ done ≡ₚ rem ++ done ++ [v]) as <-; [|done].
      solve_Permutation.
    + intros x Hx. apply Hin. set_solver.
Qed.

Lemma flat_sort : NoDup ds → iterative_topological_sort g t = Ok (t :: ds).
Proof.
  intros Hnd. apply (loop_result g t (S (length ds))).
  rewrite (loop_next g _ _ (flat_state t ds [])); last first.
  { apply (step_visit g ∅ [] [] [] t ds [] []); [|done..].
    apply not_elem_of_empty. }
  rewrite flat_loop; [|done|by rewrite app_nil_r|by intros x; rewrite app_nil_r].
  simpl. destruct ds as [|d ds']; [done|].
  rewrite reverse_cons, last_snoc, removelast_last.
  by rewrite reverse_involutive.
Qed.
End flat.

(** X3. A target whose dependencies have no dependencies of their own
    resolves to these dependencies in the reverse of the order in which the
    target lists them, and then the target. *)
Theorem flat_reverse_order (g : graph) (t : string) (ds : list string) :
  g !! t = Some ds → NoDup ds → (∀ d, d ∈ ds → g !! d = Some []) →
  topo_order g t = Ok (reverse ds ++ [t]).
Proof.
  intros Ht Hnd Hleaf. unfold topo_order.
  rewrite (flat_sort g t ds Ht Hleaf Hnd). unfold Py.reversed.
  by rewrite reverse_cons.
Qed.

Lemma flat_reverse_order_witness :
  topo_order g_flat "t" = Ok ["z"; "y"; "x"; "t"].
Proof.
  apply (flat_reverse_order g_flat "t" ["x"; "y"; "z"]).
  - reflexivity.
  - apply (bool_decide_unpack _). vm_compute. reflexivity.
  - intros d Hd. repeat (apply elem_of_cons in Hd as [->|Hd]; [reflexivity|]).
    by apply elem_of_nil in Hd.
Defined.

(** ** The results of a run *)

Import Topo Graph Engine Trace.

Section call_facts.
Context {Time : Type}.
Implicit Types (d : list (@action Time)) (k : string).

Lemma call_results_app d1 d2 :
  call_results (d1 ++ d2) = call_results d1 ++ call_results d2.
Proof. apply omap_app. Qed.

Lemma call_results_calls d : (call_results d).*1 = calls d.
Proof.
  induction d as [|a d IH]; [done|].
  destruct a; simpl; try exact IH. f_equal. exact IH.
Qed.

Lemma stage_ok_results timed k d :
  stage_ok timed k d →
  ∃ r, call_results d = [(k, r)] ∧ ok_result r ∧
       (writes d).*2 = stage_events k r.
Proof.
  destruct 1 as [ts ts'|ts ts' tl Htl].
  - exists None. split; [done|]. split; [by left|done].
  - exists (Some 0%Z). rewrite call_results_app, writes_app.
    destruct timed; [destruct Htl as [t ->]|subst tl];
      (split; [done|]); (split; [by right|done]).
Qed.

Lemma stages_ok_results timed o d :
  stages_ok timed o d →
  (call_results d).*1 = o ∧
  Forall (λ kr, ok_result kr.2) (call_results d) ∧
  (writes d).*2 = call_results d ≫= (λ kr, stage_events kr.1 kr.2).
Proof.
  induction 1 as [|k ks d ds Hd _ (IH1 & IH2 & IH3)]; [by repeat constructor|].
  destruct (stage_ok_results _ _ _ Hd) as (r & Hr & Hok & Hw).
  rewrite call_results_app, writes_app, !fmap_app, Hr, Hw, IH3, IH1. simpl.
  split; [done|]. split; [by constructor|]. done.
Qed.

(** The calls of a run are the stages of an initial part of the order, and
    every call but the last returned [None] or 0. *)
Lemma pipeline_shape_results timed order out d :
  pipeline_shape timed order out d →
  ∃ o2, order = (call_results d).*1 ++ o2 ∧
        ∀ pre k r post, call_results d = pre ++ (k, r) :: post →
                        Forall (λ kr, ok_result kr.2) pre.
Proof.
  intros (ts & body & -> & Hout). simpl. rewrite call_results_app. simpl.
  rewrite app_nil_r.
  assert (∀ l pre k r post,
            Forall (λ kr : string * option Z, ok_result kr.2) l →
            l = pre ++ (k, r) :: post → Forall (λ kr, ok_result kr.2) pre)
    as Hpre.
  { intros l pre k r post Hl ->. by apply Forall_app in Hl as [? _]. }
  destruct out as [res|c|k'|].
  - destruct Hout as (ds & ts' & -> & Hok).
    apply stages_ok_results in Hok as (H1 & H2 & _).
    rewrite call_results_app. simpl. rewrite app_nil_r.
    exists []. rewrite app_nil_r. split; [done|]. intros pre k r post.
    by apply Hpre.
  - destruct Hout as (_ & o1 & k & o2 & d1 & d2 & -> & -> & Hok & Hfail).
    apply stages_ok_results in Hok as (H1 & H2 & _).
    destruct Hfail as [ts0 ts1 ts2 c' Hc'].
    rewrite call_results_app. simpl. exists o2.
    rewrite fmap_app, H1, <-app_assoc. split; [done|].
    intros pre k0 r post Heq.
    destruct post as [|z post _] using rev_ind.
    + apply app_inj_tail in Heq as [<- _]. done.
    + rewrite app_comm_cons, app_assoc in Heq.
      apply app_inj_tail in Heq as [Heq _]. by eapply Hpre.
  - destruct Hout as (o1 & o2 & d1 & d2 & -> & -> & Hok & Hmiss).
    apply stages_ok_results in Hok as (H1 & H2 & _).
    destruct Hmiss as [ts0]. rewrite call_results_app. simpl.
    rewrite app_nil_r. exists (k' :: o2). split; [by rewrite H1|].
    intros pre k r post. by apply Hpre.
  - done.
Qed.

Lemma results_of_lookup (l : list (string * option Z)) k r :
  NoDup l.*1 → results_of ∅ l !! k = Some r ↔ (k, r) ∈ l.
Proof.
  unfold results_of. induction l as [|[k' r'] l IH] using rev_ind; intros Hnd.
  - simpl. rewrite lookup_empty. split; [done|by intros ?%elem_of_nil].
  - rewrite fmap_app in Hnd. apply NoDup_app in Hnd as (Hnd & Hk' & _).
    rewrite foldl_snoc, elem_of_app, list_elem_of_singleton. simpl.
    destruct (decide (k = k')) as [->|Hne].
    + rewrite lookup_insert_eq. split; [intros [= ->]; by right|].
      intros [Hin|[= ->]]; [|done]. exfalso. apply (Hk' k'); [|by left].
      apply list_elem_of_fmap. by exists (k', r).
    + rewrite lookup_insert_ne by done. rewrite IH by done.
      split; [by left|]. intros [?|[= ? ?]]; done.
Qed.

Lemma stage_events_results (m : gmap string (option Z))
    (l : list (string * option Z)) :
  Forall (λ kr, m !! kr.1 = Some kr.2) l →
  l ≫= (λ kr, stage_events kr.1 kr.2)
  = l.*1 ≫= λ k, stage_events k (default None (m !! k)).
Proof.
  induction 1 as [|[k r] l Hkr _ IH]; [done|].
  simpl in Hkr. rewrite fmap_cons, !bind_cons, IH. simpl. by rewrite Hkr.
Qed.
End call_facts.

(** The order the engine walks: every node after the nodes it depends on. *)
Lemma topo_order_before (g : graph) (key : string) (l a b : list string)
    (x y : string) :
  acyclic g → closed g → is_Some (g !! key) →
  topo_order g key = Ok l → l = a ++ x :: b → depends g x y → y ∈ a.
Proof.
  intros Hac Hcl Hkey Hl Hab Hxy.
  destruct (sort_correct g Hac Hcl key Hkey) as (L & HL & _ & Hda & _).
  unfold topo_order in Hl. rewrite HL in Hl. injection Hl as <-.
  apply elem_of_reverse.
  apply (deps_after_trans g L (reverse b) x (reverse a) y Hda); [|done].
  rewrite <-(reverse_involutive L). unfold Py.reversed in Hab. rewrite Hab.
  by rewrite reverse_app, reverse_cons, <-app_assoc.
Qed.

Section run_facts.
Context {World Time : Type}.
Variable now : World → string * World.
Variable default_timer : World → Time * World.
Variable time_sub : Time → Time → Time.
Variable format_2f : Time → string.

Local Abbreviation run_stage := (run_stage now default_timer time_sub format_2f).
Local Abbreviation run_stages := (run_stages now default_timer time_sub format_2f).
Local Abbreviation run_pipeline := (run_pipeline now default_timer time_sub format_2f).
Local Abbreviation execute_dask := (execute_dask now default_timer time_sub format_2f).
Local Abbreviation dask := (gmap string (@runnable World * list string)).
Local Abbreviation timed tf := (bool_decide (is_Some (tf : option string))).

Implicit Types (s : @state World Time) (d : list (@action Time)).

Ltac run_ops :=
  unfold mbind, M_bind, bind, mret, M_ret, ret, get_now, get_timer,
    state_write, state_flush, act, call, update_timing, exit, raise_KeyError;
  simpl.

(** The value a stage leaves in [res], and the key of the [KeyError]. *)
Lemma run_stage_result (dsk : dask) tf res k s out s' :
  run_stage dsk tf res k s = (out, s') →
  ∃ d, log s' = log s ++ d ∧
       match out with
       | Return res' =>
           ∃ r, call_results d = [(k, r)] ∧ res' = <[k := r]> res
       | RaiseKeyError _ => dsk !! k = None
       | _ => True
       end.
Proof.
  unfold Engine.run_stage. run_ops.
  destruct (now (world s)) as [ts0 w0]. simpl.
  destruct (now w0) as [ts1 w1]. simpl.
  destruct (default_timer w1) as [t0 w2]. simpl.
  destruct (dsk !! k) as [[f deps]|]; run_ops.
  - destruct (f w2) as [r w3]. simpl.
    destruct (default_timer w3) as [t1 w4]. simpl.
    destruct r as [c|]; [case_decide as Hc|]; run_ops.
    + destruct (now w4) as [ts2 w5]. simpl. subst c.
      destruct tf as [path|]; run_ops; intros [= <- <-]; simpl;
        eexists; (split; [by rewrite <-!app_assoc|]); by eexists.
    + destruct (now w4) as [ts2 w5]. simpl.
      destruct (now w5) as [ts3 w6]. simpl.
      intros [= <- <-]. simpl. eexists. split; [by rewrite <-!app_assoc|done].
    + destruct (now w4) as [ts2 w5]. simpl.
      intros [= <- <-]. simpl.
      eexists. split; [by rewrite <-!app_assoc|]. by eexists.
  - intros [= <- <-]. simpl. eexists. split; [by rewrite <-!app_assoc|done].
Qed.

Lemma run_stages_result (dsk : dask) tf order res s out s' :
  run_stages dsk tf res order s = (out, s') →
  ∃ d, log s' = log s ++ d ∧
       match out with
       | Return res' => res' = results_of res (call_results d)
       | RaiseKeyError k => dsk !! k = None ∧ k ∈ order
       | _ => True
       end.
Proof.
  revert res s. induction order as [|k order IH]; intros res s; simpl.
  - run_ops. intros [= <- <-]. exists []. by rewrite app_nil_r.
  - unfold mbind, M_bind, bind.
    destruct (run_stage dsk tf res k s) as [o1 s1] eqn:H1.
    destruct (run_stage_result _ _ _ _ _ _ _ H1) as (d1 & Hl1 & Hr1).
    destruct (run_stage_shape _ _ _ _ _ _ _ _ _ _ _ H1) as (d1' & Hl1' & _ & Hs1).
    destruct o1 as [res1|c|k'|]; [|intros [= <- <-]..].
    + intros H2. destruct (IH _ _ H2) as (d2 & Hl2 & Hr2).
      destruct Hr1 as (r & Hcr & ->).
      exists (d1 ++ d2). rewrite Hl2, Hl1. split; [by rewrite app_assoc|].
      destruct out as [res2|c|k'|]; try done.
      * rewrite call_results_app, Hcr. done.
      * destruct Hr2 as [? ?]. split; [done|by right].
    + by exists d1.
    + exists d1. split; [done|]. destruct Hs1 as [-> _]. split; [done|by left].
    + by exists d1.
Qed.

Lemma run_pipeline_result (dsk : dask) tf order s out s' :
  run_pipeline dsk tf order s = (out, s') →
  ∃ d, log s' = log s ++ d ∧
       state_file s' = File (writes d) [] ∧
       pipeline_shape (timed tf) order out d ∧
       match out with
       | Return res => res = results_of ∅ (call_results d)
       | RaiseKeyError k => dsk !! k = None ∧ k ∈ order
       | _ => True
       end.
Proof.
  intros Hrun.
  destruct (run_pipeline_shape _ _ _ _ _ _ _ _ _ _ Hrun)
    as (d & Hl & Hf & Hshape).
  exists d. split; [done|].
  split; [rewrite Hf; by eapply pipeline_shape_file|]. split; [done|].
  revert Hrun. unfold Engine.run_pipeline, with_open. run_ops.
  destruct (now (world s)) as [ts0 w0]. simpl.
  match goal with
  | |- context [Engine.run_stages _ _ _ _ _ _ ?r _ ?s0] =>
      destruct (run_stages dsk tf r order s0) as [o1 s1] eqn:H1
  end.
  destruct (run_stages_result _ _ _ _ _ _ _ H1) as (d1 & Hl1 & Hr1).
  simpl in Hl1.
  destruct o1 as [res1|c|k'|]; simpl.
  - destruct (now (world s1)) as [ts1 w1]. simpl. intros [= <- <-].
    simpl in Hl. rewrite Hl1, <-!app_assoc in Hl.
    apply app_inv_head in Hl. subst d. simpl.
    rewrite call_results_app. simpl. by rewrite app_nil_r.
  - by intros [= <- <-].
  - by intros [= <- <-].
  - by intros [= <- <-].
Qed.

(** What a call returned is what the runnable of the stage returns in some
    world. *)
Lemma run_stage_calls (dsk : dask) tf res k s out s' :
  run_stage dsk tf res k s = (out, s') →
  ∃ d, log s' = log s ++ d ∧
       Forall (λ kr, ∃ f deps w, dsk !! kr.1 = Some (f, deps) ∧
                                 (f w).1 = kr.2)
              (call_results d).
Proof.
  unfold Engine.run_stage. run_ops.
  destruct (now (world s)) as [ts0 w0]. simpl.
  destruct (now w0) as [ts1 w1]. simpl.
  destruct (default_timer w1) as [t0 w2]. simpl.
  destruct (dsk !! k) as [[f deps]|] eqn:Hk; run_ops.
  - destruct (f w2) as [r w3] eqn:Hf. simpl.
    assert (∃ f' deps' w, dsk !! k = Some (f', deps') ∧ (f' w).1 = r) as Hr.
    { exists f, deps, w2. by rewrite Hf. }
    destruct (default_timer w3) as [t1 w4]. simpl.
    destruct r as [c|]; [case_decide as Hc|]; run_ops.
    + destruct (now w4) as [ts2 w5]. simpl. subst c.
      destruct tf as [path|]; run_ops; intros [= <- <-]; simpl;
        eexists; (split; [by rewrite <-!app_assoc|]); by repeat constructor.
    + destruct (now w4) as [ts2 w5]. simpl.
      destruct (now w5) as [ts3 w6]. simpl.
      intros [= <- <-]. simpl. eexists. split; [by rewrite <-!app_assoc|].
      by repeat constructor.
    + destruct (now w4) as [ts2 w5]. simpl.
      intros [= <- <-]. simpl.
      eexists. split; [by rewrite <-!app_assoc|]. by repeat constructor.
  - intros [= <- <-]. simpl. eexists. split; [by rewrite <-!app_assoc|].
    constructor.
Qed.

Lemma run_stages_calls (dsk : dask) tf order res s out s' :
  run_stages dsk tf res order s = (out, s') →
  ∃ d, log s' = log s ++ d ∧
       Forall (λ kr, ∃ f deps w, dsk !! kr.1 = Some (f, deps) ∧
                                 (f w).1 = kr.2)
              (call_results d).
Proof.
  revert res s. induction order as [|k order IH]; intros res s; simpl.
  - run_ops. intros [= <- <-]. exists []. rewrite app_nil_r.
    split; [done|constructor].
  - unfold mbind, M_bind, bind.
    destruct (run_stage dsk tf res k s) as [o1 s1] eqn:H1.
    destruct (run_stage_calls _ _ _ _ _ _ _ H1) as (d1 & Hl1 & Hr1).
    destruct o1 as [res1|c|k'|]; [|intros [= <- <-]; by exists d1..].
    intros H2. destruct (IH _ _ H2) as (d2 & Hl2 & Hr2).
    exists (d1 ++ d2). rewrite Hl2, Hl1. split; [by rewrite app_assoc|].
    rewrite call_results_app. by apply Forall_app.
Qed.

Lemma run_pipeline_calls (dsk : dask) tf order s out s' d :
  run_pipeline dsk tf order s = (out, s') → log s' = log s ++ d →
  Forall (λ kr, ∃ f deps w, dsk !! kr.1 = Some (f, deps) ∧ (f w).1 = kr.2)
         (call_results d).
Proof.
  unfold Engine.run_pipeline, with_open. run_ops.
  destruct (now (world s)) as [ts0 w0]. simpl.
  match goal with
  | |- context [Engine.run_stages _ _ _ _ _ _ ?r _ ?s0] =>
      destruct (run_stages dsk tf r order s0) as [o1 s1] eqn:H1
  end.
  destruct (run_stages_calls _ _ _ _ _ _ _ H1) as (d1 & Hl1 & Hr1).
  simpl in Hl1.
  destruct o1 as [res1|c|k'|]; simpl;
    [destruct (now (world s1)) as [ts1 w1]; simpl|..];
    intros [= <- <-] Hl; simpl in Hl; rewrite Hl1, <-!app_assoc in Hl;
    apply app_inv_head in Hl; subst d; simpl;
    rewrite call_results_app; simpl; by rewrite app_nil_r.
Qed.

(** The order that the engine resolves, on any dask. *)
Lemma topo_order_scan (g : graph) key order :
  topo_order g key = Ok order →
  NoDup order ∧ (∀ x, x ∈ order ↔ closure g key x) ∧
  (∀ x, x ∈ order → is_Some (g !! x)).
Proof.
  unfold topo_order. pose proof (sort_scan g key) as H.
  destruct (iterative_topological_sort g key) as [L|k|]; [|done..].
  intros [= <-]. destruct H as (_ & Hnd & Hin & Hkeys). unfold Py.reversed.
  split; [by rewrite reverse_Permutation|].
  split; intros x; rewrite elem_of_reverse; [apply Hin|apply Hkeys].
Qed.

Lemma execute_dask_result (dsk : dask) key tf s out s' :
  execute_dask dsk key tf s = (out, s') →
  match topo_order (snd <$> dsk) key with
  | Ok order =>
      ∃ d, log s' = log s ++ d ∧
           state_file s' = File (writes d) [] ∧
           pipeline_shape (timed tf) order out d ∧
           match out with
           | Return res => res = results_of ∅ (call_results d)
           | RaiseKeyError k => False
           | _ => True
           end
  | KeyError k => out = RaiseKeyError k ∧ s' = s
  | OutOfFuel => False
  end.
Proof.
  unfold Engine.execute_dask.
  pose proof (sort_scan (snd <$> dsk) key) as Hscan.
  destruct (topo_order (snd <$> dsk) key) as [order|k|] eqn:Ho.
  - intros Hrun.
    destruct (run_pipeline_result _ _ _ _ _ _ Hrun) as (d & Hl & Hf & Hs & Hr).
    exists d. split_and!; try done. destruct out as [res|c|k|]; try done.
    destruct Hr as [Hk Hin].
    apply topo_order_scan in Ho as (_ & _ & Hkeys).
    apply Hkeys in Hin as [deps Hd]. rewrite lookup_fmap, Hk in Hd. done.
  - by intros [= <- <-].
  - unfold topo_order in Ho.
    by destruct (iterative_topological_sort (snd <$> dsk) key).
Qed.

Lemma execute_dask_calls (dsk : dask) key tf s out s' d :
  execute_dask dsk key tf s = (out, s') → log s' = log s ++ d →
  Forall (λ kr, ∃ f deps w, dsk !! kr.1 = Some (f, deps) ∧ (f w).1 = kr.2)
         (call_results d).
Proof.
  unfold Engine.execute_dask.
  destruct (topo_order (snd <$> dsk) key) as [order|k|].
  - apply run_pipeline_calls.
  - intros [= <- <-] Hl. rewrite <-(app_nil_r (log s)) in Hl at 1.
    apply app_inv_head in Hl. subst d. constructor.
  - intros [= <- <-] Hl. rewrite <-(app_nil_r (log s)) in Hl at 1.
    apply app_inv_head in Hl. subst d. constructor.
Qed.

(** X4. When a node that can be reached from the key, or the key itself, is
    no key of the dask, [execute_dask] raises [KeyError] before it opens the
    state file: the ledger of the run before, the timing file and the log
    are as they were, and no stage is called. *)
Theorem execute_dask_missing_node (dsk : dask) key tf s :
  (∃ x, closure (snd <$> dsk) key x ∧ dsk !! x = None) →
  ∃ k, execute_dask dsk key tf s = (RaiseKeyError k, s) ∧
       dsk !! k = None ∧ closure (snd <$> dsk) key k.
Proof.
  intros (x & Hx & Hnone). unfold Engine.execute_dask, topo_order.
  pose proof (sort_scan (snd <$> dsk) key) as H.
  destruct (iterative_topological_sort (snd <$> dsk) key) as [L|k|];
    simpl in H; [|exists k|done].
  - destruct H as (_ & _ & Hin & Hkeys).
    apply Hin, Hkeys in Hx as [deps Hd]. by rewrite lookup_fmap, Hnone in Hd.
  - destruct H as [Hk Hc]. split; [done|]. split; [|done].
    rewrite lookup_fmap in Hk. by apply fmap_None in Hk.
Qed.

(** X5. A run of [execute_dask] that returns has called every stage that
    can be reached from the key, once, in the resolved order, and each call
    returned [None] or 0. The dict it returns has these stages for its keys,
    each with what its call returned. The state file holds, flushed,
    [START_PIPELINE], then for every stage in that order [START] followed by
    [END] or, for a stage that returned [None], [END_WITHOUT_RUN], then
    [PIPELINE_SUCCESS]. *)
Theorem execute_dask_returns (dsk : dask) key tf s res s' :
  execute_dask dsk key tf s = (Return res, s') →
  ∃ order d,
    topo_order (snd <$> dsk) key = Ok order ∧
    log s' = log s ++ d ∧
    (call_results d).*1 = order ∧
    (∀ k r, res !! k = Some r ↔ (k, r) ∈ call_results d) ∧
    (∀ k, is_Some (res !! k) ↔ closure (snd <$> dsk) key k) ∧
    (∀ k r, res !! k = Some r → r = None ∨ r = Some 0%Z) ∧
    buf (state_file s') = [] ∧
    (disk (state_file s')).*2
    = START_PIPELINE ::
      (order ≫= λ k, stage_events k (default None (res !! k)))
      ++ [PIPELINE_SUCCESS].
Proof.
  intros Hrun. pose proof (execute_dask_result _ _ _ _ _ _ Hrun) as H.
  destruct (topo_order (snd <$> dsk) key) as [order|k|] eqn:Ho;
    [|by destruct H|done].
  destruct H as (d & Hl & Hf & (ts & body & -> & ds & ts' & -> & Hok) & ->).
  apply topo_order_scan in Ho as (Hnd & Hin & _).
  apply stages_ok_results in Hok as (Hcalls & Hres & Hw).
  assert (call_results
            (AOpen :: AWrite (ts, START_PIPELINE) :: AFlush ::
             (ds ++ [AWrite (ts', PIPELINE_SUCCESS); AFlush]) ++ [AClose])
          = call_results ds) as Hcr.
  { simpl. rewrite !call_results_app. simpl. by rewrite !app_nil_r. }
  rewrite Hcr in *.
  assert (∀ k r, results_of ∅ (call_results ds) !! k = Some r
                 ↔ (k, r) ∈ call_results ds) as Hlook.
  { intros k r. apply results_of_lookup. by rewrite Hcalls. }
  exists order, (AOpen :: AWrite (ts, START_PIPELINE) :: AFlush ::
                 (ds ++ [AWrite (ts', PIPELINE_SUCCESS); AFlush]) ++ [AClose]).
  rewrite Hcr. split_and!; try done.
  - intros k. rewrite <-Hin, <-Hcalls. split.
    + intros [r Hr%Hlook]. apply list_elem_of_fmap. by exists (k, r).
    + intros ([k' r] & -> & Hr)%list_elem_of_fmap. exists r. by apply Hlook.
  - intros k r Hr%Hlook. eapply Forall_forall in Hres; [|done]. done.
  - by rewrite Hf.
  - rewrite Hf. simpl. rewrite !writes_app. simpl. rewrite !fmap_app. simpl.
    rewrite app_nil_r. f_equal. f_equal. rewrite Hw, <-Hcalls.
    assert (Forall (λ kr, results_of ∅ (call_results ds) !! kr.1 = Some kr.2)
                   (call_results ds)) as Hall.
    { apply Forall_forall. intros [k r] Hkr. by apply Hlook. }
    by apply stage_events_results.
Qed.

(** X6. On a dask without cycles whose dependency ids are all keys, the
    engine calls no stage twice, and when it calls a stage, every stage
    that this one depends on, directly or through others, has been called
    before, and every call before this one returned [None] or 0. *)
Theorem dependencies_called_first (dsk : dask) key tf s out s' :
  acyclic (snd <$> dsk) → closed (snd <$> dsk) → is_Some (dsk !! key) →
  execute_dask dsk key tf s = (out, s') →
  ∃ d, log s' = log s ++ d ∧
       NoDup (call_results d).*1 ∧
       ∀ pre k r post,
         call_results d = pre ++ (k, r) :: post →
         Forall (λ kr, ok_result kr.2) pre ∧
         ∀ j, depends (snd <$> dsk) k j → j ∈ pre.*1.
Proof.
  intros Hac Hcl Hkey Hrun.
  pose proof (execute_dask_result _ _ _ _ _ _ Hrun) as H.
  destruct (topo_order (snd <$> dsk) key) as [order|k|] eqn:Ho.
  - destruct H as (d & Hl & _ & Hshape & _). exists d. split; [done|].
    destruct (pipeline_shape_results _ _ _ _ Hshape) as (o2 & Hord & Hpre).
    pose proof (topo_order_scan _ _ _ Ho) as (Hnd & _).
    split; [rewrite Hord in Hnd; by apply NoDup_app in Hnd as [? _]|].
    intros pre k r post Heq. split; [by eapply Hpre|]. intros j Hj.
    eapply (topo_order_before (snd <$> dsk) key order pre.*1
              (post.*1 ++ o2) k j); try done.
    + rewrite lookup_fmap. destruct Hkey as [v ->]. by eexists.
    + rewrite Hord, Heq, fmap_app, <-app_assoc. done.
  - destruct H as [-> ->]. exists []. rewrite app_nil_r. split; [done|].
    split; [constructor|]. by intros [|??] ????.
  - done.
Qed.

(** X7. The ways a run of [execute_dask] ends. It returns when every call
    returned [None] or 0. It leaves with the exit status 3, and no other,
    when the last call it made returned another status, every call before
    having returned [None] or 0. It raises [KeyError] for a key that the
    dask does not have, and then it has done nothing. The model's loop of
    the resolution never runs out of fuel. *)
Theorem execute_dask_outcome (dsk : dask) key tf s out s' :
  execute_dask dsk key tf s = (out, s') →
  ∃ d, log s' = log s ++ d ∧
       match out with
       | Return _ => Forall (λ kr, ok_result kr.2) (call_results d)
       | SystemExit code =>
           code = 3%Z ∧
           ∃ pre k c, call_results d = pre ++ [(k, Some c)] ∧ c ≠ 0%Z ∧
                      Forall (λ kr, ok_result kr.2) pre
       | RaiseKeyError k => dsk !! k = None ∧ d = [] ∧ s' = s
       | Diverge => False
       end.
Proof.
  intros Hrun. pose proof (execute_dask_result _ _ _ _ _ _ Hrun) as H.
  destruct (topo_order (snd <$> dsk) key) as [order|k|] eqn:Ho.
  - destruct H as (d & Hl & _ & (ts & body & -> & Hshape) & Hout).
    eexists. split; [done|]. simpl. rewrite call_results_app. simpl.
    rewrite app_nil_r. destruct out as [res|c|k|]; [| |done|done].
    + destruct Hshape as (ds & ts' & -> & Hok).
      apply stages_ok_results in Hok as (_ & Hres & _).
      rewrite call_results_app. simpl. by rewrite app_nil_r.
    + destruct Hshape as (-> & o1 & k & o2 & d1 & d2 & _ & -> & Hok & Hfail).
      split; [done|]. apply stages_ok_results in Hok as (_ & Hres & _).
      destruct Hfail as [ts0 ts1 ts2 c Hc]. rewrite call_results_app. simpl.
      by exists (call_results d1), k, c.
  - destruct H as [-> ->]. exists []. rewrite app_nil_r. split; [done|].
    unfold topo_order in Ho. pose proof (sort_scan (snd <$> dsk) key) as Hs.
    destruct (iterative_topological_sort (snd <$> dsk) key) as [L|k'|];
      [done| |done].
    injection Ho as ->. destruct Hs as [Hk _]. rewrite lookup_fmap in Hk.
    by apply fmap_None in Hk.
  - done.
Qed.
End run_facts.

Lemma execute_dask_missing_node_witness :
  ∃ k, Demo.exec "zz" = (RaiseKeyError k, Demo.s0) ∧
       Demo.dsk !! k = None ∧ closure (snd <$> Demo.dsk) "zz" k.
Proof.
  apply (execute_dask_missing_node Demo.now Demo.default_timer Nat.sub
           Demo.format_2f Demo.dsk "zz" (Some "timing.txt") Demo.s0).
  exists "zz". split; [constructor|reflexivity].
Defined.

Lemma execute_dask_returns_witness :
  ∃ order d,
    topo_order (snd <$> Demo.dsk) "b" = Ok order ∧
    log (Demo.exec "b").2 = log Demo.s0 ++ d ∧
    (call_results d).*1 = order.
Proof.
  assert (Demo.exec "b"
          = (Return (<["b" := None]> (<["a" := Some 0%Z]> ∅)),
             (Demo.exec "b").2)) as Hrun.
  { vm_compute. reflexivity. }
  destruct (execute_dask_returns Demo.now Demo.default_timer Nat.sub
              Demo.format_2f Demo.dsk "b" (Some "timing.txt") Demo.s0 _ _ Hrun)
    as (order & d & Hord & Hlog & Hcalls & _).
  exists order, d. split; [exact Hord|]. split; [exact Hlog|exact Hcalls].
Defined.

Lemma dependencies_called_first_witness :
  ∃ d, log (Demo.exec "c").2 = log Demo.s0 ++ d ∧
       NoDup (call_results d).*1 ∧
       ∀ pre k r post,
         call_results d = pre ++ (k, r) :: post →
         Forall (λ kr, ok_result kr.2) pre ∧
         ∀ j, depends (snd <$> Demo.dsk) k j → j ∈ pre.*1.
Proof.
  apply (dependencies_called_first Demo.now Demo.default_timer Nat.sub
           Demo.format_2f Demo.dsk "c" (Some "timing.txt") Demo.s0
           (Demo.exec "c").1).
  - apply (acyclic_check _ (λ x, match x with
                                 | String c _ => nat_of_ascii c
                                 | EmptyString => 0
                                 end)).
    apply (bool_decide_unpack _). vm_compute. reflexivity.
  - apply closed_check. apply (bool_decide_unpack _). vm_compute. reflexivity.
  - apply (bool_decide_unpack _). vm_compute. reflexivity.
  - apply surjective_pairing.
Defined.

Lemma execute_dask_outcome_witness :
  ∃ d, log (Demo.exec "c").2 = log Demo.s0 ++ d ∧
       ∃ pre k c, call_results d = pre ++ [(k, Some c)] ∧ c ≠ 0%Z ∧
                  Forall (λ kr, ok_result kr.2) pre.
Proof.
  assert (Demo.exec "c" = (SystemExit 3, (Demo.exec "c").2)) as Hrun.
  { vm_compute. reflexivity. }
  destruct (execute_dask_outcome Demo.now Demo.default_timer Nat.sub
              Demo.format_2f Demo.dsk "c" (Some "timing.txt") Demo.s0 _ _ Hrun)
    as (d & Hlog & _ & Hlast).
  exists d. split; [exact Hlog|exact Hlast].
Defined.

(** ** The timing file as text *)

Import Timing.

Section comment_facts.
Implicit Types (s line : string) (c : ascii) (t : timings).

Lemma contains_lstrip c s :
  Str.contains c s = false → Str.contains c (Str.lstrip s) = false.
Proof.
  induction s as [|a s IH]; [done|]. simpl.
  destruct (Str.is_space a); [|done]. case_decide; [done|apply IH].
Qed.

Lemma contains_rstrip c s :
  Str.contains c s = false → Str.contains c (Str.rstrip s) = false.
Proof.
  induction s as [|a s IH]; [done|]. simpl. case_decide as Ha; [done|].
  intros Hs. specialize (IH Hs). destruct (Str.rstrip s) as [|b r].
  - destruct (Str.is_space a); [done|]. simpl. by rewrite decide_False.
  - simpl in *. by rewrite decide_False.
Qed.

Lemma contains_strip c s :
  Str.contains c s = false → Str.contains c (Str.strip s) = false.
Proof. intros Hs. by apply contains_lstrip, contains_rstrip. Qed.

Lemma contains_split c sep s :
  Str.contains c s = false →
  Forall (λ w, Str.contains c w = false) (Str.split sep s).
Proof.
  induction s as [|a s IH]; [by repeat constructor|]. simpl.
  case_decide as Ha; [done|]. intros Hs. specialize (IH Hs).
  case_decide; [by constructor|].
  destruct (Str.split sep s) as [|w ws].
  - repeat constructor. simpl. by rewrite decide_False.
  - apply Forall_cons in IH as [Hw Hws]. constructor; [|done].
    simpl. by rewrite decide_False.
Qed.

(** No key and no sample that is read from a file has a [#] in it. *)
Lemma read_line_no_hash t line :
  Forall (λ kv, Str.contains "#" kv.1 = false ∧
                Forall (λ x, Str.contains "#" x = false) kv.2) t →
  Forall (λ kv, Str.contains "#" kv.1 = false ∧
                Forall (λ x, Str.contains "#" x = false) kv.2)
         (read_line t line).
Proof.
  intros Ht. unfold read_line. case_decide; [done|].
  destruct (Str.contains "#" line) eqn:Hline; [done|].
  pose proof (contains_split "#" "," _ (contains_strip _ _ Hline)) as Hsp.
  destruct (Str.split "," (Str.strip line)) as [|k samples]; [done|].
  apply Forall_cons in Hsp as [Hk Hsamples]. rewrite fmap_cons.
  apply dict_set_Forall; [done|]. simpl. split; [by apply contains_strip|].
  apply Forall_fmap. eapply Forall_impl; [done|].
  intros x Hx. by apply contains_strip.
Qed.

Lemma read_timings_no_hash content :
  Forall (λ kv, Str.contains "#" kv.1 = false ∧
                Forall (λ x, Str.contains "#" x = false) kv.2)
         (read_timings content).
Proof.
  unfold read_timings.
  generalize (Str.readlines (Str.universal_newlines content)). intros lines.
  assert (Forall (λ kv : string * list string,
                    Str.contains "#" kv.1 = false ∧
                    Forall (λ x, Str.contains "#" x = false) kv.2) [])
    as Hnil by constructor.
  revert Hnil. generalize (@nil (string * list string)).
  induction lines as [|line lines IH]; intros acc Hacc; [done|].
  simpl. by apply IH, read_line_no_hash.
Qed.

Lemma write_timings_app t1 t2 :
  write_timings (t1 ++ t2) = write_timings t1 +:+ write_timings t2.
Proof.
  induction t1 as [|kv t1 IH]; [by rewrite append_nil_l|].
  simpl. by rewrite !write_timings_cons, IH, append_assoc, append_cons.
Qed.


End comment_facts.

Section store_facts.
Context {Time : Type}.
Variable format_2f : Time → string.


(** X9. The file that [update_timing] writes has no [#] in it, whatever the
    file held before, when the stage name and the formatted time have none:
    the lines with a [#], comments as well as lines of data, are not kept. *)
Theorem update_timing_drops_comments (file : option string) (name : string)
    (time : Time) :
  Str.contains "#" name = false →
  Str.contains "#" (format_2f time) = false →
  Str.contains "#" (update_timing format_2f file name time) = false.
Proof.
  intros Hname Htime. rewrite update_timing_writes.
  assert (Forall (λ kv, Str.contains "#" kv.1 = false ∧
                        Forall (λ x, Str.contains "#" x = false) kv.2)
                 (timings_of file)) as Hold.
  { destruct file as [content|]; [apply read_timings_no_hash|constructor]. }
  apply write_timings_no; [done..|].
  apply dict_set_Forall; [done|]. simpl. split; [done|].
  apply Forall_app. split; [|by apply Forall_singleton].
  destruct (Dict.get (timings_of file) name) as [old|] eqn:Hget; [|constructor].
  apply dict_get_Some in Hget. eapply Forall_forall in Hold; [|done].
  apply Hold.
Qed.


End store_facts.


Lemma update_timing_drops_comments_witness :
  Str.contains "#" (update_timing id (Some "# times in seconds
a,1.00
") "b" "0.25") = false.
Proof.
  apply (update_timing_drops_comments id (Some "# times in seconds
a,1.00
") "b" "0.25"); reflexivity.
Defined.



(** ** Resolutions one after the other *)

Import Workspace.

Section resolution_facts.
Implicit Types (root name p d x : string) (fs : dirs) (n : nat).

(** A reusing resolution returns the last match in the order of strings, or
    the canonical path when nothing matches, and changes nothing. *)
Lemma make_working_dir_reuse root name fs :
  ∃ m, make_working_dir root name 0 fs = Returned (Some m) fs ∧
       ((∀ x, x ∈ fs → matches (path_join root name) x = false) →
        m = path_join root name) ∧
       (∀ x, x ∈ fs → matches (path_join root name) x = true →
             m ∈ fs ∧ matches (path_join root name) m = true ∧
             ∀ y, y ∈ fs → matches (path_join root name) y = true →
                  str_le y m).
Proof.
  unfold make_working_dir. rewrite decide_True by done.
  eexists. split; [done|]. rewrite sorted_length.
  set (prev := glob_star (path_join root name) fs). split.
  - intros Hnone. rewrite decide_True; [done|].
    destruct prev as [|x prev'] eqn:Hprev; [done|].
    assert (x ∈ prev) as Hx by (rewrite Hprev; by left).
    apply elem_of_glob_star in Hx as [Hx Hm]. by rewrite Hnone in Hm.
  - intros x Hx Hm.
    assert (x ∈ prev) as Hin by by apply elem_of_glob_star.
    rewrite decide_False; last first.
    { destruct prev; [by apply elem_of_nil in Hin|done]. }
    destruct (last (sorted prev)) as [m|] eqn:Hlast; last first.
    { apply last_None in Hlast. apply sorted_elem_of in Hin.
      rewrite Hlast in Hin. by apply elem_of_nil in Hin. }
    simpl. assert (m ∈ prev) as Hmin.
    { apply sorted_elem_of. apply last_Some in Hlast as [l' ->].
      apply elem_of_app. right. by left. }
    apply elem_of_glob_star in Hmin as [? ?]. split; [done|]. split; [done|].
    intros y Hy Hym. eapply sorted_last; [done|]. by apply elem_of_glob_star.
Qed.



End resolution_facts.





(** With ten matches, the versioned directory has the suffix [_10] and comes
    before the one with the suffix [_9] in the order of strings: the
    reusing resolution that follows returns the older directory. *)
Example reuse_misses_tenth :
  let fs := after "/r" ∅ (replicate 10 ("foo", 2%Z)) in
  make_working_dir "/r" "foo" 2 fs
  = Returned (Some "/r/foo_10") ({["/r/foo_10"]} ∪ fs) ∧
  make_working_dir "/r" "foo" 0 ({["/r/foo_10"]} ∪ fs)
  = Returned (Some "/r/foo_9") ({["/r/foo_10"]} ∪ fs).
Proof. vm_compute. split; reflexivity. Qed.



(** ** The stages of [main] *)

Import Cmd Main.

Section dsk_facts.
Implicit Types (p : params) (f : flags) (w : working_dirs).

Lemma if_pair {A B} (b : bool) (x y : A) (d : B) :
  (if b then (x, d) else (y, d)) = (if b then x else y, d).
Proof. by destruct b. Qed.

Lemma build_dsk_graph p f w :
  graph_of_tasks (build_dsk p f w) = pipeline_graph.
Proof.
  unfold graph_of_tasks, build_dsk. cbv zeta. rewrite !if_pair.
  repeat match goal with
         | |- context [if truthy ?z then Run ?c else Skip] =>
             generalize (if truthy z then Run c else Skip); intros ?
         end.
  vm_compute. reflexivity.
Qed.
End dsk_facts.

Section main_facts.
Context {World Time : Type}.
Variable now : World → string * World.
Variable default_timer : World → Time * World.
Variable time_sub : Time → Time → Time.
Variable format_2f : Time → string.
Variable subprocess_call : string → World → Z * World.

Local Abbreviation execute_dask :=
  (Engine.execute_dask now default_timer time_sub format_2f).
Local Abbreviation engine_dask := (engine_dask subprocess_call).
Local Abbreviation runnable_of := (runnable_of subprocess_call).

Implicit Types (p : params) (f : flags) (w : working_dirs).

Lemma build_dsk_entries p f w : Forall (stage_entry f) (build_dsk p f w).
Proof.
  unfold build_dsk. cbv zeta.
  repeat (apply dict_set_Forall;
          [|unfold stage_entry; simpl;
            match goal with
            | |- context [flag_of f ?k] =>
                let v := eval vm_compute in (flag_of f k) in
                change (flag_of f k) with v
            end;
            unfold truthy; try case_bool_decide; simpl; try done;
            by apply dec_stable]).
  constructor.
Qed.

Lemma engine_dask_lookup (dsk : dsk_of_tasks) e k fn deps :
  engine_dask dsk = Some e → e !! k = Some (fn, deps) →
  ∃ t, (k, (t, deps)) ∈ dsk ∧ runnable_of t = Some fn.
Proof.
  unfold Main.engine_dask. intros (l & Hl & ->)%fmap_Some Hk.
  apply elem_of_list_to_map_2 in Hk. apply mapM_Some_1 in Hl.
  apply list_elem_of_lookup in Hk as [i Hi].
  destruct (Forall2_lookup_r _ _ _ _ _ Hl Hi) as ([k' [t deps']] & Hkv & Hr).
  simpl in Hr. destruct (runnable_of t) as [r|] eqn:Ht; [|done].
  simpl in Hr. injection Hr as -> -> ->.
  exists t. split; [|done]. by eapply list_elem_of_lookup_2.
Qed.

Lemma engine_dask_graph (dsk : dsk_of_tasks) e :
  engine_dask dsk = Some e → snd <$> e = graph_of_tasks dsk.
Proof.
  unfold Main.engine_dask, graph_of_tasks.
  intros (l & Hl & ->)%fmap_Some. rewrite <-list_to_map_fmap. f_equal.
  apply mapM_Some_1 in Hl.
  induction Hl as [|[k [t deps]] y dsk l Hy _ IH]; [done|].
  rewrite !fmap_cons, IH. simpl in *.
  destruct (runnable_of t) as [r|]; [|done].
  simpl in Hy. by injection Hy as <-.
Qed.

(** X16. Whatever the flags and the other arguments, the dask that [main]
    builds has the same dependency graph, and its stages are run in one
    order: a flag decides whether a stage is a command, not when its turn
    comes. *)
Theorem main_order_fixed p f w :
  graph_of_tasks (build_dsk p f w) = pipeline_graph ∧
  (build_dsk p f w).*1
  = ["choose_calibrators"; "subtract"; "solve_dds4"; "smooth_dds4";
     "tec_inference"; "slow_solve_dds4"; "infer_screen"; "merge_slow";
     "image_subtract_dirty"; "image_dds4"; "image_smooth";
     "image_smooth_slow"; "image_screen"; "image_screen_slow"; "endpoint"] ∧
  topo_order (graph_of_tasks (build_dsk p f w)) "endpoint" = Ok main_order.
Proof.
  split; [apply build_dsk_graph|]. split.
  - unfold build_dsk. cbv zeta. rewrite !if_pair.
    repeat match goal with
           | |- context [if truthy ?z then Run ?c else Skip] =>
               generalize (if truthy z then Run c else Skip); intros ?
           end.
    vm_compute. reflexivity.
  - rewrite build_dsk_graph. exact pipeline_order.
Qed.

(** X17. When [main] runs its dask, with every command of it callable, the
    stages that are called are an initial part of the one order. The call
    of a stage returns [None], so that the ledger has [END_WITHOUT_RUN]
    for it, when and only when the flag of the stage is zero; the
    [endpoint] always does. No [KeyError] is raised. *)
Theorem main_stage_calls p f w dsk tf s out s' :
  engine_dask (build_dsk p f w) = Some dsk →
  execute_dask dsk "endpoint" tf s = (out, s') →
  ∃ d o2,
    Engine.log s' = Engine.log s ++ d ∧
    main_order = (call_results d).*1 ++ o2 ∧
    (∀ k r, (k, r) ∈ call_results d → (r = None ↔ flag_of f k = 0%Z)) ∧
    (∀ k, out ≠ Engine.RaiseKeyError k).
Proof.
  intros Hdsk Hrun.
  pose proof (execute_dask_result _ _ _ _ _ _ _ _ _ _ Hrun) as H.
  pose proof (engine_dask_graph _ _ Hdsk) as Hg. rewrite build_dsk_graph in Hg.
  unfold Engine.runnable in H. rewrite Hg, pipeline_order in H.
  destruct H as (d & Hl & _ & Hshape & Hout).
  destruct (pipeline_shape_results _ _ _ _ Hshape) as (o2 & Hord & _).
  exists d, o2. split_and!; [done|done| |by destruct out].
  intros k r Hkr.
  pose proof (execute_dask_calls _ _ _ _ _ _ _ _ _ _ _ Hrun Hl) as Hcalls.
  eapply Forall_forall in Hcalls as (fn & deps & wd & Hk & Hr); [|done].
  simpl in *.
  destruct (engine_dask_lookup _ _ _ _ _ Hdsk Hk) as (t & Hin & Ht).
  pose proof (build_dsk_entries p f w) as Hent.
  eapply Forall_forall in Hent; [|done]. unfold stage_entry in Hent.
  simpl in Hent. destruct t as [c|]; simpl in Ht.
  - unfold call in Ht. destruct (working_dir c) as [dir|]; [|done].
    injection Ht as <-. destruct (subprocess_call _ wd) as [st wd'].
    simpl in Hr. subst r. split; [done|]. by intros ?.
  - injection Ht as <-. simpl in Hr. by subst r.
Qed.
End main_facts.

Import Workspace.

Section resolve_facts.
Implicit Types (root name : string) (fs : dirs) (f : flags)
  (w : working_dirs) (calls : list (string * Z)).

Lemma make_working_dirs_all root f fs :
  match make_working_dirs root f fs with
  | inl e => resolve_all root (resolutions f) fs = inl e
  | inr (w, fs') => resolve_all root (resolutions f) fs = inr (dirs_list w, fs')
  end.
Proof.
  unfold make_working_dirs, resolutions, mbind, W_bind, mret, W_ret. simpl.
  repeat match goal with
         | |- context [resolve ?r ?n ?z ?s] =>
             destruct (resolve r n z s) as [?|[? ?]]; [done|]
         end.
  done.
Qed.

Lemma resolve_result root name z fs r fs' :
  resolve root name z fs = inr (r, fs') →
  (is_Some r ↔ z = 0 ∨ z = 1 ∨ z = 2)%Z.
Proof.
  unfold resolve, make_working_dir.
  destruct (decide (z = 0%Z)) as [->|H0].
  { intros [= <- <-]. split; [by left|by eexists]. }
  destruct (decide (z = 1%Z)) as [->|H1].
  { destruct (remove_previous _ _ _) as [[e fs1]|fs1]; [done|].
    destruct (makedirs _ _) as [e|fs2]; [done|].
    intros [= <- <-]. split; [by right; left|by eexists]. }
  destruct (decide (z = 2%Z)) as [->|H2].
  { destruct (makedirs _ _) as [e|fs2]; [done|].
    intros [= <- <-]. split; [by right; right|by eexists]. }
  intros [= <- <-]. split; [by intros [? ?]|naive_solver].
Qed.

Lemma resolve_all_results root calls fs rs fs' :
  resolve_all root calls fs = inr (rs, fs') →
  Forall2 (λ c r, is_Some r ↔ (c.2 = 0 ∨ c.2 = 1 ∨ c.2 = 2)%Z) calls rs.
Proof.
  revert fs rs. induction calls as [|c calls IH]; intros fs rs; simpl.
  - intros [= <- <-]. constructor.
  - destruct (resolve root c.1 c.2 fs) as [e|[r fs1]] eqn:Hr; [done|].
    destruct (resolve_all root calls fs1) as [e|[rs1 fs2]] eqn:Hrs; [done|].
    intros [= <- <-]. constructor; [by eapply resolve_result|by eapply IH].
Qed.







Lemma resolve_all_reuse root calls fs :
  Forall (λ c, c.2 = 0%Z) calls →
  ∃ rs, resolve_all root calls fs = inr (rs, fs) ∧ Forall is_Some rs.
Proof.
  induction 1 as [|[name z] calls Hz _ (rs & IH & Hrs)].
  - by exists [].
  - simpl in *. subst z. unfold resolve.
    destruct (make_working_dir_reuse root name fs) as (m & -> & _).
    rewrite IH. eexists. split; [done|]. by constructor.
Qed.
End resolve_facts.

Section main_run_facts.
Context {World : Type}.
Variable subprocess_call : string → World → Z * World.
Implicit Types (p : params) (f : flags) (w : working_dirs).

Lemma build_dsk_callable p f w :
  Forall is_Some (dirs_list w) →
  is_Some (engine_dask subprocess_call (build_dsk p f w)).
Proof.
  intros Hw. unfold engine_dask. apply fmap_is_Some, mapM_is_Some_2.
  destruct w. unfold dirs_list in Hw. simpl in Hw.
  repeat match goal with
         | H : Forall _ (_ :: _) |- _ =>
             apply Forall_cons in H as [[? ->] H]
         end.
  unfold build_dsk. cbv zeta.
  repeat (apply dict_set_Forall; [|simpl; try (destruct (truthy _)); done]).
  constructor.
Qed.

(** X18. When the working directories of [main] are resolved with every
    flag one of 0, 1 and 2, every stage has a path for its directory, and
    every command of the dask can be called. *)
Theorem main_commands_callable root p f w (fs fs' : dirs) :
  flags_valid f →
  make_working_dirs root f fs = inr (w, fs') →
  Forall is_Some (dirs_list w) ∧
  is_Some (engine_dask subprocess_call (build_dsk p f w)).
Proof.
  intros Hvalid Hmk. pose proof (make_working_dirs_all root f fs) as Hall.
  rewrite Hmk in Hall. apply resolve_all_results in Hall.
  assert (Forall is_Some (dirs_list w)) as Hw.
  { unfold flags_valid in Hvalid. induction Hall as [|c r cs rs Hcr _ IH];
      [done|].
    apply Forall_cons in Hvalid as [Hc Hcs].
    constructor; [by apply Hcr|by apply IH]. }
  split; [done|]. by apply build_dsk_callable.
Qed.
End main_run_facts.


(** X20. With every flag zero, as the flags are when none is given, [main]
    makes no directory and removes none, every stage has a path for its
    directory, and no stage of the dask is a command. *)
Theorem default_flags_keep_dirs (root : string) (p : params) (f : flags)
    (fs : dirs) :
  Forall (λ c, c.2 = 0%Z) (resolutions f) →
  ∃ w, make_working_dirs root f fs = inr (w, fs) ∧
       Forall is_Some (dirs_list w) ∧
       Forall (λ kv, kv.2.1 = Skip) (build_dsk p f w).
Proof.
  intros Hzero.
  destruct (resolve_all_reuse root _ fs Hzero) as (rs & Hres & Hrs).
  pose proof (make_working_dirs_all root f fs) as Hall.
  destruct (make_working_dirs root f fs) as [e|[w fs']];
    rewrite Hall in Hres; [done|].
  apply (inj inr), pair_equal_spec in Hres as [<- <-].
  exists w. split; [done|]. split; [done|].
  unfold resolutions in Hzero.
  repeat match goal with
         | H : Forall _ (_ :: _) |- _ => apply Forall_cons in H as [? H]
         end.
  simpl in *. unfold build_dsk. cbv zeta.
  repeat match goal with
         | H : ?z = 0%Z |- _ => rewrite H; clear H
         end.
  repeat (apply dict_set_Forall; [|done]). constructor.
Qed.

Lemma main_stage_calls_witness :
  ∃ d o2,
    Engine.log TestMain.run.2 = Engine.log Demo.s0 ++ d ∧
    main_order = (call_results d).*1 ++ o2 ∧
    (∀ k r, (k, r) ∈ call_results d →
            (r = None ↔ flag_of TestMain.flags k = 0%Z)) ∧
    (∀ k, TestMain.run.1 ≠ Engine.RaiseKeyError k).
Proof.
  apply (main_stage_calls Demo.now Demo.default_timer Nat.sub Demo.format_2f
           TestMain.subprocess_call TestMain.params TestMain.flags
           TestMain.working_dirs TestMain.dsk (Some "timing.txt") Demo.s0).
  - vm_compute. reflexivity.
  - apply surjective_pairing.
Defined.

Lemma main_commands_callable_witness :
  Forall is_Some (dirs_list TestMain.working_dirs) ∧
  is_Some (engine_dask TestMain.subprocess_call
             (build_dsk TestMain.params TestMain.flags TestMain.working_dirs)).
Proof.
  apply (main_commands_callable TestMain.subprocess_call
           TestMain.root_working_dir TestMain.params TestMain.flags
           TestMain.working_dirs ∅
           {["/home/albert/store/root_redo/L342938/tec_inference"]}).
  - repeat (apply Forall_cons; split; [simpl; lia|]). constructor.
  - vm_compute. reflexivity.
Defined.


Lemma default_flags_keep_dirs_witness :
  ∃ w, make_working_dirs TestMain.root_working_dir TestMain.no_flags
         {["/home/albert/store/root_redo/L342938/tec_inference"]}
       = inr (w, {["/home/albert/store/root_redo/L342938/tec_inference"]}) ∧
       Forall is_Some (dirs_list w) ∧
       Forall (λ kv, kv.2.1 = Skip)
              (build_dsk TestMain.params TestMain.no_flags w).
Proof.
  apply (default_flags_keep_dirs TestMain.root_working_dir TestMain.params
           TestMain.no_flags).
  repeat constructor.
Defined.

(** ** The argument types *)

Section args_facts.
Import Args.

Lemma lower_char_inv (c l u : ascii) :
  (l, u) ∈ letters → lower_char c = l → c = l ∨ c = u.
Proof.
  intros Hl. unfold letters in Hl.
  repeat (apply elem_of_cons in Hl as [[= -> ->]|Hl];
          [destruct c as [[] [] [] [] [] [] [] []]; vm_compute; intros H;
           first [discriminate H | by left | by right]|]).
  by apply elem_of_nil in Hl.
Qed.

Lemma lower_char_letter (l u : ascii) :
  (l, u) ∈ letters → lower_char l = l ∧ lower_char u = l.
Proof.
  intros Hl. unfold letters in Hl.
  repeat (apply elem_of_cons in Hl as [[= -> ->]|Hl]; [by split|]).
  by apply elem_of_nil in Hl.
Qed.

Lemma lower_word (s : string) (a b c d : ascii * ascii) :
  a ∈ letters → b ∈ letters → c ∈ letters → d ∈ letters →
  lower s = String a.1 (String b.1 (String c.1 (String d.1 "")))
  ↔ s ∈ spellings a b c d.
Proof.
  destruct a as [a1 a2], b as [b1 b2], c as [c1 c2], d as [d1 d2].
  intros Ha Hb Hc Hd. unfold spellings. simpl. split.
  - destruct s as [|x1 [|x2 [|x3 [|x4 [|x5 s]]]]]; simpl; try done.
    intros [= H1 H2 H3 H4].
    apply (lower_char_inv _ _ _ Ha) in H1.
    apply (lower_char_inv _ _ _ Hb) in H2.
    apply (lower_char_inv _ _ _ Hc) in H3.
    apply (lower_char_inv _ _ _ Hd) in H4.
    destruct H1, H2, H3, H4; subst;
      repeat first [by left | right].
  - destruct (lower_char_letter _ _ Ha) as [Ha1 Ha2].
    destruct (lower_char_letter _ _ Hb) as [Hb1 Hb2].
    destruct (lower_char_letter _ _ Hc) as [Hc1 Hc2].
    destruct (lower_char_letter _ _ Hd) as [Hd1 Hd2].
    intros H.
    repeat (apply elem_of_cons in H as [->|H];
            [simpl; by rewrite ?Ha1, ?Ha2, ?Hb1, ?Hb2, ?Hc1, ?Hc2, ?Hd1, ?Hd2|]).
    by apply elem_of_nil in H.
Qed.

(** X21. The argument type [str_or_none] gives [None] for the sixteen
    spellings of [none] in lower and upper case and the string itself for
    any other, and the type [bool] gives [True] for the sixteen spellings
    of [true] and [False] for any other string. *)
Theorem argument_types (s : string) :
  string_or_none s
  = (if decide (s ∈ spellings ("n", "N")%char ("o", "O")%char
                              ("n", "N")%char ("e", "E")%char)
     then None else Some s) ∧
  bool_type s
  = bool_decide (s ∈ spellings ("t", "T")%char ("r", "R")%char
                               ("u", "U")%char ("e", "E")%char).
Proof.
  assert (∀ x, x ∈ letters ↔ bool_decide (x ∈ letters) = true) as Hdec.
  { intros x. by rewrite bool_decide_eq_true. }
  split.
  - unfold string_or_none.
    pose proof (lower_word s ("n", "N")%char ("o", "O")%char
                  ("n", "N")%char ("e", "E")%char) as H.
    simpl in H.
    repeat case_decide; try done; exfalso; rewrite H in *; try done;
      by apply Hdec.
  - unfold bool_type. apply bool_decide_ext.
    apply (lower_word s ("t", "T")%char ("r", "R")%char
             ("u", "U")%char ("e", "E")%char);
      by apply Hdec.
Qed.

Example spellings_none :
  spellings ("n", "N")%char ("o", "O")%char ("n", "N")%char ("e", "E")%char
  = ["none"; "nonE"; "noNe"; "noNE"; "nOne"; "nOnE"; "nONe"; "nONE";
     "None"; "NonE"; "NoNe"; "NoNE"; "NOne"; "NOnE"; "NONe"; "NONE"].
Proof. reflexivity. Qed.
End args_facts.

(** ** The command line of a stage *)

Section cmd_facts.
Implicit Types (c : CMD) (args : list (string * value)) (dir : string).

Lemma join_cons (sep x : string) (l : list string) :
  Str.join sep (x :: l) = x +:+ Str.concat ((λ y, sep +:+ y) <$> l).
Proof.
  revert x. induction l as [|y l IH]; intros x.
  - simpl. by rewrite append_nil_r.
  - change (Str.join sep (x :: y :: l)) with (x +:+ sep +:+ Str.join sep (y :: l)).
    rewrite IH, fmap_cons. unfold Str.concat. simpl.
    by rewrite append_assoc.
Qed.

Lemma add_all c args :
  cmd (foldl (λ c nv, add c nv.1 nv.2) c args) = cmd c ++ (arg_text <$> args) ∧
  working_dir (foldl (λ c nv, add c nv.1 nv.2) c args) = working_dir c ∧
  exec_env (foldl (λ c nv, add c nv.1 nv.2) c args) = exec_env c.
Proof.
  revert c. induction args as [|[n v] args IH]; intros c; simpl.
  - by rewrite app_nil_r.
  - destruct (IH (add c n v)) as (-> & -> & ->). simpl.
    unfold Py.append. by rewrite <-app_assoc.
Qed.
End cmd_facts.

(** X22. A command keeps the working directory and the environment it was
    made with, whatever is added to it, and has its arguments in the order
    in which they were added. The text that is run has [python], the path
    of the script, every argument and, last, the part that writes the log
    and leaves with the exit status of the script, each on a line of its
    own that continues the line before. *)
Theorem command_line_format (wd : option string) (script_dir script : string)
    (e : env) (args : list (string * value)) (dir : string) :
  let c := foldl (λ c nv, add c nv.1 nv.2) (new wd script_dir script e) args in
  working_dir c = wd ∧ exec_env c = e ∧
  cmd c = "python" :: path_join script_dir script :: (arg_text <$> args) ∧
  exec_command c dir
  = compose e
      ("python"
       +:+ Str.concat
             ((λ y, sep_text +:+ y)
                <$> path_join script_dir script :: (arg_text <$> args)
                    ++ [tee_text dir])).
Proof.
  intros c. destruct (add_all (new wd script_dir script e) args)
    as (Hcmd & Hwd & Henv). fold c in Hcmd, Hwd, Henv.
  split; [done|]. split; [done|]. split; [done|].
  unfold exec_command, run_cmd. rewrite Henv, Hcmd.
  change (exec_env (new wd script_dir script e)) with e.
  change (cmd (new wd script_dir script e))
    with ["python"; path_join script_dir script].
  rewrite <-app_assoc.
  change (["python"; path_join script_dir script] ++ ?l)
    with ("python" :: path_join script_dir script :: l).
  by rewrite join_cons.
Qed.

(** ** Blocks of rows and of times *)

Section block_facts.
Import Blocks.
Local Open Scope Z_scope.

Lemma covered_app l1 l2 : covered (l1 ++ l2) = covered l1 ++ covered l2.
Proof. unfold covered. by rewrite bind_app. Qed.

(** The first [k] blocks cover the indices below [min (k * step) n]. *)
Lemma blocks_take (n step : Z) (k : nat) :
  0 < step → 0 ≤ n →
  covered ((λ i, (i, Z.min (i + step) n))
             <$> ((λ i : nat, Z.of_nat i * step) <$> seq 0 k))
  = seqZ 0 (Z.min (Z.of_nat k * step) n).
Proof.
  intros Hstep Hn. induction k as [|k IH].
  - simpl. rewrite Z.min_l by lia. done.
  - rewrite seq_S, !fmap_app, covered_app, IH. simpl.
    unfold covered. simpl. rewrite app_nil_r.
    destruct (decide (Z.of_nat k * step ≤ n)) as [Hle|Hgt].
    + rewrite (Z.min_l (Z.of_nat k * step)) by lia.
      replace (Z.min (Z.of_nat (S k) * step) n)
        with (Z.of_nat k * step
              + (Z.min (Z.of_nat k * step + step) n - Z.of_nat k * step))
        by lia.
      rewrite seqZ_app by lia. done.
    + rewrite (Z.min_r (Z.of_nat k * step)), (Z.min_r (Z.of_nat (S k) * step))
        by lia.
      rewrite (Z.min_r _ n) by lia.
      replace (n - Z.of_nat k * step) with (- (Z.of_nat k * step - n)) by lia.
      rewrite (seqZ_nil _ (- _)) by lia. by rewrite app_nil_r.
Qed.

Lemma range_length_pos (n step : Z) :
  0 < step → 0 ≤ n →
  n ≤ Z.of_nat (range_length n step) * step ∧
  (0 < n → (Z.of_nat (range_length n step) - 1) * step < n).
Proof.
  intros Hstep Hn. unfold range_length. rewrite decide_True by done.
  case_decide as Hpos; [|lia].
  rewrite Z2Nat.id by (pose proof (Z.div_pos (n - 1) step); lia).
  pose proof (Z.mul_div_le (n - 1) step Hstep).
  pose proof (Z.mul_succ_div_gt (n - 1) step Hstep). lia.
Qed.

Lemma blocks_spec (n step : Z) :
  0 < step → 0 ≤ n →
  ∃ l, blocks n step = inr l ∧
       covered l = seqZ 0 n ∧
       Forall (λ ab, 0 ≤ ab.1 < ab.2 ∧ ab.2 ≤ n ∧ ab.2 - ab.1 ≤ step) l ∧
       (Z.of_nat (length l) - 1) * step < Z.max n 1 ∧
       n ≤ Z.of_nat (length l) * step.
Proof.
  intros Hstep Hn. unfold blocks, range. rewrite decide_False by lia.
  eexists. split; [done|].
  destruct (range_length_pos n step Hstep Hn) as [Hup Hlow].
  split; [|split; [|split]].
  - rewrite blocks_take by done. f_equal. lia.
  - apply Forall_fmap, Forall_fmap, Forall_forall. intros i Hi. simpl.
    apply elem_of_seq in Hi.
    assert (0 < n) as Hpos.
    { destruct (decide (0 < n)) as [|Hz]; [done|]. exfalso.
      unfold range_length in Hi.
      rewrite decide_True, decide_False in Hi by done. lia. }
    specialize (Hlow Hpos).
    assert (0 ≤ Z.of_nat i * step) as H0 by (apply Z.mul_nonneg_nonneg; lia).
    assert (Z.of_nat i * step
            ≤ (Z.of_nat (range_length n step) - 1) * step) as Hi'
      by (apply Z.mul_le_mono_nonneg_r; lia).
    lia.
  - rewrite !length_fmap, length_seq.
    destruct (decide (0 < n)); [specialize (Hlow ltac:(done)); lia|].
    unfold range_length. rewrite decide_True, decide_False by done. lia.
  - by rewrite !length_fmap, length_seq.
Qed.
End block_facts.



(** X24. The blocks of times of [sequential_solve]: one after the other
    they cover every time once, in order, and no block is empty or longer
    than fifty times. *)
Theorem time_blocks_cover (N : Z) :
  (0 ≤ N)%Z →
  ∃ l, Blocks.time_blocks N = inr l ∧
       covered l = seqZ 0%Z N ∧
       Forall (λ ab, 0 ≤ ab.1 < ab.2 ∧ ab.2 ≤ N ∧ ab.2 - ab.1 ≤ 50)%Z l.
Proof.
  intros HN. destruct (blocks_spec N 50) as (l & Hl & Hc & Hf & _); [lia..|].
  by exists l.
Qed.

Lemma time_blocks_cover_witness :
  ∃ l, Blocks.time_blocks 120%Z = inr l ∧
       covered l = seqZ 0%Z 120%Z ∧
       Forall (λ ab, 0 ≤ ab.1 < ab.2 ∧ ab.2 ≤ 120 ∧ ab.2 - ab.1 ≤ 50)%Z l.
Proof. apply (time_blocks_cover 120%Z). discriminate. Defined.
